(** * iterator-utils: a shallow embedding of [iterator/iterators.h]

    The header defines lazy views (Enumerate, Chain, Reverse, Join, Map,
    Filter, Zip) over STL-style collections.  Every view hands out cursors
    built from the cursors of the wrapped collection(s).  This file embeds

    - the STL side the header relies on: a collection as a [list], its
      [iterator] as a position into it, and [std::reverse_iterator] as the
      usual wrapper around a base iterator;
    - each adapter's cursor class, field by field and method by method;
    - the range-based [for] loop that drives a pair of cursors.

    Dereferencing an iterator that designates no element is undefined
    behaviour in C++; here it is the outcome [Undefined].  The two [while]
    loops of the header (in [FilterIterator] and [ChainedIterator]) and the
    range-based [for] are bounded by a fuel argument; running out of it is
    the outcome [OutOfFuel]. *)

From Stdlib Require Import List ZArith Lia Bool Arith PeanoNat.
Import ListNotations.

(** ** Outcomes of running a piece of the header *)

Inductive outcome (T : Type) : Type :=
| Ok (t : T)
| Undefined
| OutOfFuel.

Arguments Ok {T} t.
Arguments Undefined {T}.
Arguments OutOfFuel {T}.

Definition bind {T U : Type} (c : outcome T) (k : T -> outcome U) : outcome U :=
  match c with
  | Ok t => k t
  | Undefined => Undefined
  | OutOfFuel => OutOfFuel
  end.

Notation "x <- c ;; k" := (bind c (fun x => k))
  (at level 61, c at next level, right associativity).

Definition of_option {T : Type} (o : option T) : outcome T :=
  match o with
  | Some t => Ok t
  | None => Undefined
  end.

(** ** Iterators of the wrapped collections

    What the header asks of an underlying iterator type: [operator*],
    [operator++] and [operator==]. *)

Class Iterator (I A : Type) : Type := {
  deref : I -> option A;
  incr : I -> I;
  ieq : I -> I -> bool
}.

#[export] Hint Mode Iterator ! - : typeclass_instances.

(** [valid_range last it xs]: advancing [it] until it compares equal to
    [last] passes over exactly the elements [xs], in this order. *)
Inductive valid_range {I A : Type} `{Iterator I A} (last : I) : I -> list A -> Prop :=
| valid_range_end (it : I) :
    ieq it last = true -> valid_range last it []
| valid_range_step (it : I) (x : A) (xs : list A) :
    ieq it last = false ->
    deref it = Some x ->
    valid_range last (incr it) xs ->
    valid_range last it (x :: xs).

(** A [std::list]/[std::vector] iterator: the container it walks and the
    position reached.  [end()] is the position one past the last element.
    Two iterators are only ever compared when they walk the same container
    (anything else is undefined in C++), so [operator==] compares positions. *)
Record list_iterator (A : Type) : Type := ListIterator {
  coll : list A;
  pos : nat
}.

Arguments ListIterator {A} coll pos.
Arguments coll {A} l.
Arguments pos {A} l.

#[export] Instance list_iterator_ops (A : Type) : Iterator (list_iterator A) A := {
  deref it := nth_error (coll it) (pos it);
  incr it := ListIterator (coll it) (S (pos it));
  ieq a b := Nat.eqb (pos a) (pos b)
}.

(** [std::reverse_iterator]: wraps a base iterator [current]; dereferencing
    reads the element just before [current], advancing moves [current] back
    ([rbegin()] wraps [end()], [rend()] wraps [begin()]).  Dereferencing
    [rend()] is [None]; advancing it is undefined in C++ and no loop below
    does it. *)
Record reverse_iterator (A : Type) : Type := ReverseIterator {
  current : list_iterator A
}.

Arguments ReverseIterator {A} current.
Arguments current {A} r.

#[export] Instance reverse_iterator_ops (A : Type) : Iterator (reverse_iterator A) A := {
  deref r :=
    match pos (current r) with
    | O => None
    | S p => nth_error (coll (current r)) p
    end;
  incr r := ReverseIterator (ListIterator (coll (current r)) (Nat.pred (pos (current r))));
  ieq a b := Nat.eqb (pos (current a)) (pos (current b))
}.

(** ** Collections

    [size_t] is modelled by [nat]: a collection never holds more elements
    than [size_t] can count, and the sums the header forms add the sizes of
    collections that exist side by side in memory. *)

Class Collection (C A : Type) : Type := {
  iterator : Type;
  iterator_ops :: Iterator iterator A;
  std_begin : C -> iterator;
  std_end : C -> iterator;
  std_empty : C -> bool;
  std_size : C -> nat
}.

Class Bidirectional (C A : Type) : Type := {
  forward_only :: Collection C A;
  riterator : Type;
  riterator_ops :: Iterator riterator A;
  std_rbegin : C -> riterator;
  std_rend : C -> riterator
}.

Arguments iterator C {A _}.
Arguments riterator C {A _}.

#[export] Hint Mode Collection ! - : typeclass_instances.
#[export] Hint Mode Bidirectional ! - : typeclass_instances.

#[export] Instance list_collection (A : Type) : Collection (list A) A := {
  iterator := list_iterator A;
  std_begin l := ListIterator l 0;
  std_end l := ListIterator l (length l);
  std_empty l := match l with [] => true | _ :: _ => false end;
  std_size l := length l
}.

#[export] Instance list_bidirectional (A : Type) : Bidirectional (list A) A := {
  forward_only := list_collection A;
  riterator := reverse_iterator A;
  std_rbegin l := ReverseIterator (std_end l);
  std_rend l := ReverseIterator (std_begin l)
}.

(** ** Cursors of views and the range-based for loop

    A view's cursor may run a loop when it is built or advanced, so its
    [operator++] takes fuel and returns an outcome. *)

Class Cursor (I A : Type) : Type := {
  cderef : I -> outcome A;
  cincr : nat -> I -> outcome I;
  ceq : I -> I -> bool
}.

#[export] Hint Mode Cursor ! - : typeclass_instances.

#[export] Instance iterator_cursor {I A : Type} `{Iterator I A} : Cursor I A := {
  cderef it := of_option (deref it);
  cincr _ it := Ok (incr it);
  ceq := ieq
}.

(** The range-based for loop over a pair of cursors: while [it != last],
    dereference [it], hand the element to the body (here: collect it), and
    advance [it].  [fuel] bounds the evaluations of the loop condition; the
    loops inside [operator++] get the same bound, each on its own. *)
Fixpoint range_for_loop {I A : Type} `{Cursor I A} (inner fuel : nat) (it last : I)
  : outcome (list A) :=
  match fuel with
  | O => OutOfFuel
  | S fuel' =>
      if ceq it last then Ok []
      else
        x <- cderef it ;;
        it' <- cincr inner it ;;
        xs <- range_for_loop inner fuel' it' last ;;
        Ok (x :: xs)
  end.

Definition range_for {I A : Type} `{Cursor I A} (fuel : nat) (it last : I)
  : outcome (list A) :=
  range_for_loop fuel fuel it last.

(** [n] times [operator++]. *)
Fixpoint advance {I A : Type} `{Cursor I A} (fuel n : nat) (it : I) : outcome I :=
  match n with
  | O => Ok it
  | S n' => it' <- cincr fuel it ;; advance fuel n' it'
  end.


(** Traversal of a whole view: build both cursors, then loop. *)
Definition traverse {I A : Type} `{Cursor I A} (fuel : nat)
    (first last : outcome I) : outcome (list A) :=
  b <- first ;; e <- last ;; range_for fuel b e.

Set Implicit Arguments.

(** ** WithSizeAndEmpty

    [size()] and [empty()] of the views that derive from [WithSizeAndEmpty]
    read the collection through the member [data_], a raw pointer.  The
    constructor of such a view hands its member [iterable_] to
    [InitializeWithSizeAndEmpty], which stores its address.  No view
    declares a copy or move constructor, so the implicit ones copy the
    pointer as it is: when [iterable_] is a reference to a collection of the
    caller, a copy or a moved view still points at that collection; when the
    view holds the collection itself, a view moved out of it points at the
    collection left behind in the view it was moved from (every chained
    operator moves the view it is called on, [MoveSelf]).

    A pointer is modelled by what it points at: the view's own [iterable_]
    (or the collection [iterable_] refers to), or another object, given by
    the value it has when the pointer is read.  An object that has been
    destroyed has no value: a pointer to it is not represented, and reading
    it is undefined in C++. *)
Module WithSizeAndEmpty.
Inductive pointer (C : Type) : Type :=
| to_iterable : pointer C
| to_other (c : C) : pointer C.

Arguments to_iterable {C}.
Arguments to_other {C} c.

(** [return *data_;] *)
Definition Data (C : Type) (iterable_ : C) (data_ : pointer C) : C :=
  match data_ with
  | to_iterable => iterable_
  | to_other c => c
  end.

Section Defs.
Context {C A : Type} `{Collection C A}.

(** [return Data().empty();] *)
Definition empty (iterable_ : C) (data_ : pointer C) : bool :=
  std_empty (Data iterable_ data_).

(** [return Data().size();] *)
Definition size (iterable_ : C) (data_ : pointer C) : nat :=
  std_size (Data iterable_ data_).
End Defs.
End WithSizeAndEmpty.

(** ** Enumerate *)

(** C++ [int]: 32 bits, two's complement.  The conversion of a [size_t] to
    [int] wraps around; so does, here, the addition on positions (in C++ an
    overflowing signed addition is undefined).  The properties below are
    stated for collections of at most [INT_MAX] elements, where neither
    wraps. *)
Definition int_wrap (z : Z) : Z := ((z + 2147483648) mod 4294967296 - 2147483648)%Z.
Definition int_add (a b : Z) : Z := int_wrap (a + b).
Definition INT_MAX : Z := 2147483647%Z.

(** [class Item]: what dereferencing an Enumerate cursor gives.  [Value] is
    the pointer member: [None] is the null pointer of a default-built item,
    [Some x] points at the element [x] of the collection. *)
Module Item.
Record t (T : Type) : Type := make {
  Position : Z;
  Value : option T
}.
Definition default (T : Type) : t T := make 0%Z None.
End Item.

Module EnumeratedIterator.
Section Defs.
Context {I A : Type} `{Iterator I A}.

Record t : Type := Build {
  begin_ : I;
  end_ : I;
  position_ : Z;
  position_delta_ : Z;
  item_ : Item.t A
}.

(** [if (begin_ != end_) item_ = _Item{position_, &NonConstValue()};] *)
Definition SetItem (it : t) : outcome t :=
  if negb (ieq (begin_ it) (end_ it)) then
    x <- of_option (deref (begin_ it)) ;;
    Ok (Build (begin_ it) (end_ it) (position_ it) (position_delta_ it)
          (Item.make (position_ it) (Some x)))
  else Ok it.

Definition make (first last : I) (position position_delta : Z) : outcome t :=
  SetItem (Build first last position position_delta (Item.default A)).

Definition op_deref (it : t) : Item.t A := item_ it.

Definition op_incr (it : t) : outcome t :=
  SetItem (Build (incr (begin_ it)) (end_ it)
             (int_add (position_ it) (position_delta_ it))
             (position_delta_ it) (item_ it)).

Definition op_eq (it other : t) : bool := ieq (begin_ it) (begin_ other).

#[export] Instance cursor : Cursor t (Item.t A) := {
  cderef it := Ok (op_deref it);
  cincr _ it := op_incr it;
  ceq := op_eq
}.
End Defs.
Arguments t I A : clear implicits.
End EnumeratedIterator.
Export (hints) EnumeratedIterator.

Module EnumeratedBase.
Section Defs.
Context {C A : Type} `{Collection C A}.

Definition kIncrement : Z := 1%Z.

Definition begin (iterable_ : C) : outcome (EnumeratedIterator.t (iterator C) A) :=
  EnumeratedIterator.make (std_begin iterable_) (std_end iterable_) 0 kIncrement.

Definition end_ (iterable_ : C) : outcome (EnumeratedIterator.t (iterator C) A) :=
  EnumeratedIterator.make (std_end iterable_) (std_end iterable_) 0 kIncrement.

(** Inherited from [WithSizeAndEmpty]: read through [data_], which the
    constructor of [EnumeratedBase] points at [iterable_]. *)
Definition size (iterable_ : C) (data_ : WithSizeAndEmpty.pointer C) : nat :=
  WithSizeAndEmpty.size iterable_ data_.
Definition empty (iterable_ : C) (data_ : WithSizeAndEmpty.pointer C) : bool :=
  WithSizeAndEmpty.empty iterable_ data_.
End Defs.
End EnumeratedBase.

Module Enumerated.
Section Defs.
Context {C A : Type} `{Bidirectional C A}.

Definition kDecrement : Z := (-1)%Z.

(** [static_cast<int>(this->size()) - 1] *)
Definition MaxPosition (iterable_ : C) (data_ : WithSizeAndEmpty.pointer C) : Z :=
  int_add (int_wrap (Z.of_nat (EnumeratedBase.size iterable_ data_))) (-1).

Definition rbegin (iterable_ : C) (data_ : WithSizeAndEmpty.pointer C)
  : outcome (EnumeratedIterator.t (riterator C) A) :=
  EnumeratedIterator.make (std_rbegin iterable_) (std_rend iterable_)
    (MaxPosition iterable_ data_) kDecrement.

Definition rend (iterable_ : C) (data_ : WithSizeAndEmpty.pointer C)
  : outcome (EnumeratedIterator.t (riterator C) A) :=
  EnumeratedIterator.make (std_rend iterable_) (std_rend iterable_)
    (MaxPosition iterable_ data_) kDecrement.
End Defs.
End Enumerated.

(** ** Chain *)

Module ChainedIterator.
Section Defs.
(** [OI] walks the outer collection, whose elements are inner
    collections [CI]; [II] walks an inner collection. *)
Context {OI II CI A : Type} `{Iterator OI CI} `{Iterator II A}.

(** The two inner iterators are value-initialised by the constructor and
    only assigned once an inner collection is at hand: [None] is such a
    not yet assigned iterator. *)
Record t : Type := Build {
  outer_begin_ : OI;
  outer_end_ : OI;
  inner_begin_ : option II;
  inner_end_ : option II;
  get_inner_begin_ : CI -> II;
  get_inner_end_ : CI -> II
}.

Definition IsAtEnd (it : t) : bool := ieq (outer_begin_ it) (outer_end_ it).

Definition IsAtEndOfInnerCollection (it : t) : outcome bool :=
  b <- of_option (inner_begin_ it) ;;
  e <- of_option (inner_end_ it) ;;
  Ok (ieq b e).

Definition InitializeInnerCollection (it : t) : outcome t :=
  if negb (IsAtEnd it) then
    c <- of_option (deref (outer_begin_ it)) ;;
    Ok (Build (outer_begin_ it) (outer_end_ it)
          (Some (get_inner_begin_ it c)) (Some (get_inner_end_ it c))
          (get_inner_begin_ it) (get_inner_end_ it))
  else Ok it.

Definition AdvanceOuterCollection (it : t) : outcome t :=
  InitializeInnerCollection
    (Build (incr (outer_begin_ it)) (outer_end_ it)
       (inner_begin_ it) (inner_end_ it)
       (get_inner_begin_ it) (get_inner_end_ it)).

(** [while (!IsAtEnd() && IsAtEndOfInnerCollection()) AdvanceOuterCollection();]
    One unit of fuel pays for one evaluation of the loop condition. *)
Fixpoint SkipEmptyInnerCollections (fuel : nat) (it : t) : outcome t :=
  match fuel with
  | O => OutOfFuel
  | S fuel' =>
      if negb (IsAtEnd it) then
        inner_done <- IsAtEndOfInnerCollection it ;;
        if inner_done then
          it' <- AdvanceOuterCollection it ;;
          SkipEmptyInnerCollections fuel' it'
        else Ok it
      else Ok it
  end.

Definition make (fuel : nat) (first last : OI)
    (inner_begin_getter inner_end_getter : CI -> II) : outcome t :=
  it <- InitializeInnerCollection
          (Build first last None None inner_begin_getter inner_end_getter) ;;
  SkipEmptyInnerCollections fuel it.

Definition op_deref (it : t) : outcome A :=
  b <- of_option (inner_begin_ it) ;;
  of_option (deref b).

Definition op_incr (fuel : nat) (it : t) : outcome t :=
  b <- of_option (inner_begin_ it) ;;
  SkipEmptyInnerCollections fuel
    (Build (outer_begin_ it) (outer_end_ it)
       (Some (incr b)) (inner_end_ it)
       (get_inner_begin_ it) (get_inner_end_ it)).

Definition op_eq (it other : t) : bool := Bool.eqb (IsAtEnd it) (IsAtEnd other).

#[export] Instance cursor : Cursor t A := {
  cderef := op_deref;
  cincr := op_incr;
  ceq := op_eq
}.
End Defs.
Arguments t OI II CI : clear implicits.
End ChainedIterator.
Export (hints) ChainedIterator.

Module ChainedBase.
Section Defs.
Context {CO CI A : Type} {outer : Collection CO CI} {inner : Collection CI A}.

Definition GetBegin (collection : CI) : @iterator CI A inner := std_begin collection.
Definition GetEnd (collection : CI) : @iterator CI A inner := std_end collection.

Definition begin (fuel : nat) (data_ : CO)
  : outcome (ChainedIterator.t (@iterator CO CI outer) (@iterator CI A inner) CI) :=
  ChainedIterator.make fuel (std_begin data_) (std_end data_) GetBegin GetEnd.

Definition end_ (fuel : nat) (data_ : CO)
  : outcome (ChainedIterator.t (@iterator CO CI outer) (@iterator CI A inner) CI) :=
  ChainedIterator.make fuel (std_end data_) (std_end data_) GetBegin GetEnd.

(** [for (const auto& collection : data_) if (!collection.empty()) return false;
    return true;] *)
Fixpoint IsEmpty_loop (fuel : nat) (it last : @iterator CO CI outer) : outcome bool :=
  match fuel with
  | O => OutOfFuel
  | S fuel' =>
      if ieq it last then Ok true
      else
        collection <- of_option (deref it) ;;
        if negb (std_empty collection) then Ok false
        else IsEmpty_loop fuel' (incr it) last
  end.

Definition IsEmpty (fuel : nat) (data_ : CO) : outcome bool :=
  IsEmpty_loop fuel (std_begin data_) (std_end data_).

Definition empty (fuel : nat) (data_ : CO) : outcome bool := IsEmpty fuel data_.

(** [std::size_t result = 0;
    for (const auto& collection : data_) result += collection.size();
    return result;] *)
Fixpoint Size_loop (fuel : nat) (it last : @iterator CO CI outer) (result : nat)
  : outcome nat :=
  match fuel with
  | O => OutOfFuel
  | S fuel' =>
      if ieq it last then Ok result
      else
        collection <- of_option (deref it) ;;
        Size_loop fuel' (incr it) last (result + std_size collection)
  end.

Definition Size (fuel : nat) (data_ : CO) : outcome nat :=
  Size_loop fuel (std_begin data_) (std_end data_) 0.

Definition size (fuel : nat) (data_ : CO) : outcome nat := Size fuel data_.
End Defs.
End ChainedBase.

(** ** Reverse *)

Module Reversed.
Record t (T : Type) : Type := Build {
  iterable_ : T;
  data_ : WithSizeAndEmpty.pointer T
}.

(** [begin()]/[end()] are the wrapped collection's [rbegin()]/[rend()],
    [rbegin()]/[rend()] its [begin()]/[end()]; [size()] and [empty()] are
    those of [WithSizeAndEmpty], read through [data_]. *)
#[export] Instance collection {T A : Type} `{Bidirectional T A} : Collection (t T) A := {
  iterator := riterator T;
  std_begin r := std_rbegin (iterable_ r);
  std_end r := std_rend (iterable_ r);
  std_empty r := WithSizeAndEmpty.empty (iterable_ r) (data_ r);
  std_size r := WithSizeAndEmpty.size (iterable_ r) (data_ r)
}.

#[export] Instance bidirectional {T A : Type} `{Bidirectional T A} : Bidirectional (t T) A := {
  forward_only := collection;
  riterator := @iterator T A forward_only;
  std_rbegin r := std_begin (iterable_ r);
  std_rend r := std_end (iterable_ r)
}.
End Reversed.
Export (hints) Reversed.

(** The factory function [Reverse]: the constructor of [Reversed] points
    [data_] at [iterable_]. *)
Definition Reverse {T : Type} (iterable : T) : Reversed.t T :=
  Reversed.Build iterable WithSizeAndEmpty.to_iterable.

(** ** Join *)

Module JoinedIterator.
Section Defs.
Context {I1 I2 A : Type} `{Iterator I1 A} `{Iterator I2 A}.

Record t : Type := Build {
  first_ : I1;
  first_end_ : I1;
  second_ : I2;
  second_end_ : I2
}.

Definition op_deref (it : t) : outcome A :=
  if negb (ieq (first_ it) (first_end_ it)) then of_option (deref (first_ it))
  else of_option (deref (second_ it)).

Definition op_incr (it : t) : t :=
  if negb (ieq (first_ it) (first_end_ it))
  then Build (incr (first_ it)) (first_end_ it) (second_ it) (second_end_ it)
  else Build (first_ it) (first_end_ it) (incr (second_ it)) (second_end_ it).

Definition op_eq (it other : t) : bool :=
  ieq (first_ it) (first_ other) && ieq (second_ it) (second_ other).

#[export] Instance cursor : Cursor t A := {
  cderef := op_deref;
  cincr _ it := Ok (op_incr it);
  ceq := op_eq
}.
End Defs.
Arguments t I1 I2 : clear implicits.
End JoinedIterator.
Export (hints) JoinedIterator.

Module JoinedBase.
Section Defs.
Context {C1 C2 A : Type} {c1 : Collection C1 A} {c2 : Collection C2 A}.

Definition begin (first_ : C1) (second_ : C2)
  : JoinedIterator.t (@iterator C1 A c1) (@iterator C2 A c2) :=
  JoinedIterator.Build (std_begin first_) (std_end first_)
    (std_begin second_) (std_end second_).

Definition end_ (first_ : C1) (second_ : C2)
  : JoinedIterator.t (@iterator C1 A c1) (@iterator C2 A c2) :=
  JoinedIterator.Build (std_end first_) (std_end first_)
    (std_end second_) (std_end second_).

Definition empty (first_ : C1) (second_ : C2) : bool :=
  std_empty first_ && std_empty second_.

Definition size (first_ : C1) (second_ : C2) : nat :=
  std_size first_ + std_size second_.
End Defs.
End JoinedBase.

Module Joined.
Section Defs.
Context {C1 C2 A : Type} {c1 : Bidirectional C1 A} {c2 : Bidirectional C2 A}.

(** The reverse cursor is a [JoinedIterator] whose first range is the
    reversed second collection. *)
Definition rbegin (first_ : C1) (second_ : C2)
  : JoinedIterator.t (@riterator C2 A c2) (@riterator C1 A c1) :=
  JoinedIterator.Build (std_rbegin second_) (std_rend second_)
    (std_rbegin first_) (std_rend first_).

Definition rend (first_ : C1) (second_ : C2)
  : JoinedIterator.t (@riterator C2 A c2) (@riterator C1 A c1) :=
  JoinedIterator.Build (std_rend second_) (std_rend second_)
    (std_rend first_) (std_rend first_).
End Defs.
End Joined.

(** ** Map

    The mapping function is any callable: it may read and write state of its
    own (captured variables, the element it is handed, a call counter).  It
    is modelled as a function that threads a world [W]; the operations of
    the cursor thread the same world, so that every invocation shows. *)

Definition eff (W T : Type) : Type := W -> outcome (T * W).

Definition eff_ret {W T : Type} (v : T) : eff W T := fun w => Ok (v, w).

Definition eff_bind {W T U : Type} (c : eff W T) (k : T -> eff W U) : eff W U :=
  fun w => r <- c w ;; k (fst r) (snd r).

Module MappedIterator.
Section Defs.
Context {I A B W : Type} `{Iterator I A}.

Record t : Type := Build {
  begin_ : I;
  end_ : I;
  mapping_function_ : A -> W -> B * W
}.

(** [return mapping_function_( *begin_ );] *)
Definition op_deref (it : t) : eff W B :=
  fun w => x <- of_option (deref (begin_ it)) ;; Ok (mapping_function_ it x w).

(** [++begin_;] *)
Definition op_incr (it : t) : eff W t :=
  eff_ret (Build (incr (begin_ it)) (end_ it) (mapping_function_ it)).

Definition op_eq (it other : t) : bool := ieq (begin_ it) (begin_ other).

(** [n] times [operator++]. *)
Fixpoint advance (n : nat) (it : t) : eff W t :=
  match n with
  | O => eff_ret it
  | S n' => eff_bind (op_incr it) (advance n')
  end.
End Defs.
Arguments t I A B W : clear implicits.
End MappedIterator.

Module MappedBase.
Section Defs.
Context {C A B W : Type} `{Collection C A}.

Definition begin (iterable_ : C) (mapping_function_ : A -> W -> B * W)
  : MappedIterator.t (iterator C) A B W :=
  MappedIterator.Build (std_begin iterable_) (std_end iterable_) mapping_function_.

Definition end_ (iterable_ : C) (mapping_function_ : A -> W -> B * W)
  : MappedIterator.t (iterator C) A B W :=
  MappedIterator.Build (std_end iterable_) (std_end iterable_) mapping_function_.
End Defs.
End MappedBase.

(** A mapping function wrapped so that the world also counts its calls. *)
Definition counted {A B W : Type} (f : A -> W -> B * W) : A -> nat * W -> B * (nat * W) :=
  fun x cw => let r := f x (snd cw) in (fst r, (S (fst cw), snd r)).

(** ** Filter *)

Module FilterIterator.
Section Defs.
Context {I A : Type} `{Iterator I A}.

Record t : Type := Build {
  begin_ : I;
  end_ : I;
  filter_ : A -> bool
}.

Definition IsEnd (it : t) : bool := ieq (begin_ it) (end_ it).

Definition IsFiltered (it : t) : outcome bool :=
  x <- of_option (deref (begin_ it)) ;; Ok (negb (filter_ it x)).

(** [while (!IsEnd() && IsFiltered()) ++begin_;]
    One unit of fuel pays for one evaluation of the loop condition. *)
Fixpoint SkipFilteredEntries (fuel : nat) (it : t) : outcome t :=
  match fuel with
  | O => OutOfFuel
  | S fuel' =>
      if negb (IsEnd it) then
        filtered <- IsFiltered it ;;
        if filtered
        then SkipFilteredEntries fuel' (Build (incr (begin_ it)) (end_ it) (filter_ it))
        else Ok it
      else Ok it
  end.

Definition make (fuel : nat) (first last : I) (filter : A -> bool) : outcome t :=
  SkipFilteredEntries fuel (Build first last filter).

Definition op_deref (it : t) : outcome A := of_option (deref (begin_ it)).

Definition op_incr (fuel : nat) (it : t) : outcome t :=
  SkipFilteredEntries fuel (Build (incr (begin_ it)) (end_ it) (filter_ it)).

Definition op_eq (it other : t) : bool := ieq (begin_ it) (begin_ other).

#[export] Instance cursor : Cursor t A := {
  cderef := op_deref;
  cincr := op_incr;
  ceq := op_eq
}.
End Defs.
Arguments t I A : clear implicits.
End FilterIterator.
Export (hints) FilterIterator.

Module FilteredBase.
Section Defs.
Context {C A : Type} `{Collection C A}.

Definition begin (fuel : nat) (iterable_ : C) (filter_ : A -> bool)
  : outcome (FilterIterator.t (iterator C) A) :=
  FilterIterator.make fuel (std_begin iterable_) (std_end iterable_) filter_.

Definition end_ (fuel : nat) (iterable_ : C) (filter_ : A -> bool)
  : outcome (FilterIterator.t (iterator C) A) :=
  FilterIterator.make fuel (std_end iterable_) (std_end iterable_) filter_.

(** [for (const auto& value : *this) return false;  return true;] *)
Definition IsEmpty (fuel : nat) (iterable_ : C) (filter_ : A -> bool) : outcome bool :=
  it <- begin fuel iterable_ filter_ ;;
  last <- end_ fuel iterable_ filter_ ;;
  if negb (ceq it last) then
    _ <- cderef it ;; Ok false
  else Ok true.

Definition empty (fuel : nat) (iterable_ : C) (filter_ : A -> bool) : outcome bool :=
  IsEmpty fuel iterable_ filter_.

(** [std::size_t result = 0;  for (const auto& value : *this) ++result;] *)
Fixpoint Size_loop (inner fuel : nat) (it last : FilterIterator.t (iterator C) A) (result : nat)
  : outcome nat :=
  match fuel with
  | O => OutOfFuel
  | S fuel' =>
      if ceq it last then Ok result
      else
        _ <- cderef it ;;
        it' <- cincr inner it ;;
        Size_loop inner fuel' it' last (S result)
  end.

Definition Size (fuel : nat) (iterable_ : C) (filter_ : A -> bool) : outcome nat :=
  it <- begin fuel iterable_ filter_ ;;
  last <- end_ fuel iterable_ filter_ ;;
  Size_loop fuel fuel it last 0.

Definition size (fuel : nat) (iterable_ : C) (filter_ : A -> bool) : outcome nat :=
  Size fuel iterable_ filter_.
End Defs.
End FilteredBase.

(** ** Zip *)

(** [class ZippedValue]: two pointers, null in a default-built value. *)
Module ZippedValue.
Record t (T1 T2 : Type) : Type := make {
  First : option T1;
  Second : option T2
}.
Definition default (T1 T2 : Type) : t T1 T2 := make None None.
End ZippedValue.

Module ZippedIterator.
Section Defs.
Context {I1 I2 A1 A2 : Type} `{Iterator I1 A1} `{Iterator I2 A2}.

Record t : Type := Build {
  first_begin_ : I1;
  first_end_ : I1;
  second_begin_ : I2;
  second_end_ : I2;
  value_ : ZippedValue.t A1 A2
}.

Definition IsAtEnd (it : t) : bool :=
  ieq (first_begin_ it) (first_end_ it) || ieq (second_begin_ it) (second_end_ it).

(** [if (!IsAtEnd()) value_ = _ZippedValue{&NonConstFirstValue(), &NonConstSecondValue()};] *)
Definition SetValue (it : t) : outcome t :=
  if negb (IsAtEnd it) then
    x <- of_option (deref (first_begin_ it)) ;;
    y <- of_option (deref (second_begin_ it)) ;;
    Ok (Build (first_begin_ it) (first_end_ it) (second_begin_ it) (second_end_ it)
          (ZippedValue.make (Some x) (Some y)))
  else Ok it.

Definition make (first_begin first_end : I1) (second_begin second_end : I2) : outcome t :=
  SetValue (Build first_begin first_end second_begin second_end
              (ZippedValue.default A1 A2)).

Definition op_deref (it : t) : ZippedValue.t A1 A2 := value_ it.

Definition op_incr (it : t) : outcome t :=
  SetValue (Build (incr (first_begin_ it)) (first_end_ it)
              (incr (second_begin_ it)) (second_end_ it) (value_ it)).

Definition op_eq (it other : t) : bool := Bool.eqb (IsAtEnd it) (IsAtEnd other).

#[export] Instance cursor : Cursor t (ZippedValue.t A1 A2) := {
  cderef it := Ok (op_deref it);
  cincr _ it := op_incr it;
  ceq := op_eq
}.
End Defs.
Arguments t I1 I2 A1 A2 : clear implicits.
End ZippedIterator.
Export (hints) ZippedIterator.

Module ZippedBase.
Section Defs.
Context {C1 C2 A1 A2 : Type} {c1 : Collection C1 A1} {c2 : Collection C2 A2}.

Definition begin (first_ : C1) (second_ : C2)
  : outcome (ZippedIterator.t (@iterator C1 A1 c1) (@iterator C2 A2 c2) A1 A2) :=
  ZippedIterator.make (std_begin first_) (std_end first_)
    (std_begin second_) (std_end second_).

Definition end_ (first_ : C1) (second_ : C2)
  : outcome (ZippedIterator.t (@iterator C1 A1 c1) (@iterator C2 A2 c2) A1 A2) :=
  ZippedIterator.make (std_end first_) (std_end first_)
    (std_end second_) (std_end second_).

Definition empty (first_ : C1) (second_ : C2) : bool :=
  std_empty first_ || std_empty second_.

Definition size (first_ : C1) (second_ : C2) : nat :=
  Nat.min (std_size first_) (std_size second_).
End Defs.
End ZippedBase.

Module Zipped.
Section Defs.
Context {C1 C2 A1 A2 : Type} {c1 : Bidirectional C1 A1} {c2 : Bidirectional C2 A2}.

Definition rbegin (first_ : C1) (second_ : C2)
  : outcome (ZippedIterator.t (@riterator C1 A1 c1) (@riterator C2 A2 c2) A1 A2) :=
  ZippedIterator.make (std_rbegin first_) (std_rend first_)
    (std_rbegin second_) (std_rend second_).

Definition rend (first_ : C1) (second_ : C2)
  : outcome (ZippedIterator.t (@riterator C1 A1 c1) (@riterator C2 A2 c2) A1 A2) :=
  ZippedIterator.make (std_rend first_) (std_rend first_)
    (std_rend second_) (std_rend second_).
End Defs.
End Zipped.

(** ** What a traversal is expected to produce *)

(** The pairs of a Zip traversal over [xs] and [ys]: position by position,
    as long as both have an element. *)
Definition zipped {A1 A2 : Type} (xs : list A1) (ys : list A2) : list (ZippedValue.t A1 A2) :=
  map (fun p => ZippedValue.make (Some (fst p)) (Some (snd p))) (combine xs ys).

(** The items of an Enumerate traversal that starts counting at [p] and
    moves the count by [d]. *)
Fixpoint items_from {A : Type} (p d : Z) (xs : list A) : list (Item.t A) :=
  match xs with
  | [] => []
  | x :: xs' => Item.make p (Some x) :: items_from (p + d) d xs'
  end.

(** Every element of [xs] with its zero-based index. *)
Definition enumerated {A : Type} (xs : list A) : list (Item.t A) :=
  map (fun p => Item.make (Z.of_nat (fst p)) (Some (snd p)))
      (combine (seq 0 (length xs)) xs).

Definition is_nil {A : Type} (xs : list A) : bool :=
  match xs with
  | [] => true
  | _ :: _ => false
  end.

Unset Implicit Arguments.

(** ** Representation invariants of the cursors

    Each relates a cursor to the elements it still has to visit. *)

Section ZipInvariant.
Context {I1 I2 A1 A2 : Type} `{Iterator I1 A1} `{Iterator I2 A2}.
Variables (e1 : I1) (e2 : I2).

(** The two underlying iterators have [xs] and [ys] left, and while both
    have an element the stored value points at the two current ones. *)
Definition zip_state (c : ZippedIterator.t I1 I2 A1 A2) (xs : list A1) (ys : list A2) : Prop :=
  ZippedIterator.first_end_ c = e1 /\
  ZippedIterator.second_end_ c = e2 /\
  valid_range e1 (ZippedIterator.first_begin_ c) xs /\
  valid_range e2 (ZippedIterator.second_begin_ c) ys /\
  match xs, ys with
  | x :: _, y :: _ => ZippedIterator.value_ c = ZippedValue.make (Some x) (Some y)
  | _, _ => True
  end.

Definition zip_repr (c : ZippedIterator.t I1 I2 A1 A2) (zs : list (ZippedValue.t A1 A2)) : Prop :=
  exists xs ys, zip_state c xs ys /\ zs = zipped xs ys.
End ZipInvariant.

Section JoinInvariant.
Context {I1 I2 A : Type} `{Iterator I1 A} `{Iterator I2 A}.
Variables (e1 : I1) (e2 : I2).

(** [all_second] is the whole second range: the second iterator does not
    move before the first one is exhausted. *)
Definition join_repr (all_second : list A) (c : JoinedIterator.t I1 I2) (zs : list A) : Prop :=
  exists xs ys,
    JoinedIterator.first_end_ c = e1 /\
    JoinedIterator.second_end_ c = e2 /\
    valid_range e1 (JoinedIterator.first_ c) xs /\
    valid_range e2 (JoinedIterator.second_ c) ys /\
    (xs <> [] -> ys = all_second) /\
    zs = xs ++ ys.
End JoinInvariant.

Section EnumerateInvariant.
Context {I A : Type} `{Iterator I A}.
Variables (e : I) (d : Z).

(** The underlying iterator has [xs] left; the positions still to be handed
    out all fit an [int]; while an element is left, the stored item holds the
    current position and points at the current element. *)
Definition enum_repr (c : EnumeratedIterator.t I A) (items : list (Item.t A)) : Prop :=
  exists xs,
    EnumeratedIterator.end_ c = e /\
    EnumeratedIterator.position_delta_ c = d /\
    valid_range e (EnumeratedIterator.begin_ c) xs /\
    (forall k, (0 <= k <= Z.of_nat (length xs))%Z ->
       (- 2147483648 <= EnumeratedIterator.position_ c + k * d <= INT_MAX)%Z) /\
    match xs with
    | x :: _ =>
        EnumeratedIterator.item_ c = Item.make (EnumeratedIterator.position_ c) (Some x)
    | [] => True
    end /\
    items = items_from (EnumeratedIterator.position_ c) d xs.
End EnumerateInvariant.

Section FilterInvariant.
Context {I A : Type} `{Iterator I A}.
Variables (e : I) (f : A -> bool) (n : nat).

(** The underlying iterator has [xs] left (at most [n] elements), and it
    rests on an element the filter accepts unless it is at the end. *)
Definition filter_repr (c : FilterIterator.t I A) (ys : list A) : Prop :=
  exists xs,
    FilterIterator.end_ c = e /\
    FilterIterator.filter_ c = f /\
    valid_range e (FilterIterator.begin_ c) xs /\
    length xs <= n /\
    match xs with
    | x :: _ => f x = true
    | [] => True
    end /\
    ys = filter f xs.
End FilterInvariant.

Section ChainInvariant.
Context {OI II CI A : Type} `{Iterator OI CI} `{Iterator II A}.
Variables (oe : OI) (gb ge : CI -> II) (elems : CI -> list A) (n : nat).

(** The outer iterator has the inner collections [Cs] left (at most [n]).
    Either none is left, or the inner iterators walk the first of them and
    have a non-empty rest [cur] of it left: the skip loop has run. *)
Definition chain_repr (c : ChainedIterator.t OI II CI) (xs : list A) : Prop :=
  ChainedIterator.outer_end_ c = oe /\
  ChainedIterator.get_inner_begin_ c = gb /\
  ChainedIterator.get_inner_end_ c = ge /\
  exists Cs,
    valid_range oe (ChainedIterator.outer_begin_ c) Cs /\
    length Cs <= n /\
    match Cs with
    | [] => xs = []
    | C :: Cs' =>
        exists ib cur,
          ChainedIterator.inner_begin_ c = Some ib /\
          ChainedIterator.inner_end_ c = Some (ge C) /\
          valid_range (ge C) ib cur /\
          cur <> [] /\
          xs = cur ++ concat (map elems Cs')
    end.
End ChainInvariant.

(** ** The rest of the header

    The reverse cursors of Map, Filter and Chain, the loop over a Map view
    (whose mapping function may carry state), the pass-through view
    Iterate, the pointer views of AsReferences, and Join and Map views
    taken as collections in their turn, as the chained operators
    ([.filter], [.enumerate], ...) take them. *)

Set Implicit Arguments.

Module Mapped.
Section Defs.
Context {C A B W : Type} `{Bidirectional C A}.

Definition rbegin (iterable_ : C) (mapping_function_ : A -> W -> B * W)
  : MappedIterator.t (riterator C) A B W :=
  MappedIterator.Build (std_rbegin iterable_) (std_rend iterable_) mapping_function_.

Definition rend (iterable_ : C) (mapping_function_ : A -> W -> B * W)
  : MappedIterator.t (riterator C) A B W :=
  MappedIterator.Build (std_rend iterable_) (std_rend iterable_) mapping_function_.
End Defs.
End Mapped.

(** The range-based for loop over Map cursors, in the world the mapping
    function lives in. *)
Fixpoint map_range_for {I A B W : Type} `{Iterator I A} (fuel : nat)
    (it last : MappedIterator.t I A B W) : eff W (list B) :=
  match fuel with
  | O => fun _ => OutOfFuel
  | S fuel' =>
      if MappedIterator.op_eq it last then eff_ret []
      else
        eff_bind (MappedIterator.op_deref it) (fun x =>
        eff_bind (MappedIterator.op_incr it) (fun it' =>
        eff_bind (map_range_for fuel' it' last) (fun xs =>
        eff_ret (x :: xs))))
  end.

(** A function without state of its own, as a mapping function. *)
Definition stateless {A B W : Type} (g : A -> B) : A -> W -> B * W :=
  fun x w => (g x, w).

(** The factory functions [MapKeys] and [MapValues]: [Map] with the
    projection to the first, respectively second, component. *)
Definition MapKeys {C K V : Type} `{Collection C (K * V)} (map : C)
  : MappedIterator.t (iterator C) (K * V) K unit * MappedIterator.t (iterator C) (K * V) K unit :=
  (MappedBase.begin map (stateless (@fst K V)), MappedBase.end_ map (stateless (@fst K V))).

Definition MapValues {C K V : Type} `{Collection C (K * V)} (map : C)
  : MappedIterator.t (iterator C) (K * V) V unit * MappedIterator.t (iterator C) (K * V) V unit :=
  (MappedBase.begin map (stateless (@snd K V)), MappedBase.end_ map (stateless (@snd K V))).

Module Filtered.
Section Defs.
Context {C A : Type} `{Bidirectional C A}.

Definition rbegin (fuel : nat) (iterable_ : C) (filter_ : A -> bool)
  : outcome (FilterIterator.t (riterator C) A) :=
  FilterIterator.make fuel (std_rbegin iterable_) (std_rend iterable_) filter_.

Definition rend (fuel : nat) (iterable_ : C) (filter_ : A -> bool)
  : outcome (FilterIterator.t (riterator C) A) :=
  FilterIterator.make fuel (std_rend iterable_) (std_rend iterable_) filter_.
End Defs.
End Filtered.

Module Chained.
Section Defs.
Context {CO CI A : Type} {outer : Bidirectional CO CI} {inner : Bidirectional CI A}.

Definition GetReverseBegin (collection : CI) : @riterator CI A inner := std_rbegin collection.
Definition GetReverseEnd (collection : CI) : @riterator CI A inner := std_rend collection.

Definition rbegin (fuel : nat) (data_ : CO)
  : outcome (ChainedIterator.t (@riterator CO CI outer) (@riterator CI A inner) CI) :=
  ChainedIterator.make fuel (std_rbegin data_) (std_rend data_)
    GetReverseBegin GetReverseEnd.

Definition rend (fuel : nat) (data_ : CO)
  : outcome (ChainedIterator.t (@riterator CO CI outer) (@riterator CI A inner) CI) :=
  ChainedIterator.make fuel (std_rend data_) (std_rend data_)
    GetReverseBegin GetReverseEnd.
End Defs.
End Chained.

(** *** Iterate *)

(** [class Iterated]: the cursors and reverse cursors of the wrapped
    collection, under a type of its own; [size()] and [empty()] are those of
    [WithSizeAndEmpty], read through [data_]. *)
Module Iterated.
Record t (T : Type) : Type := Build {
  iterable_ : T;
  data_ : WithSizeAndEmpty.pointer T
}.

#[export] Instance collection {T A : Type} `{Bidirectional T A} : Collection (t T) A := {
  iterator := @iterator T A forward_only;
  std_begin v := std_begin (iterable_ v);
  std_end v := std_end (iterable_ v);
  std_empty v := WithSizeAndEmpty.empty (iterable_ v) (data_ v);
  std_size v := WithSizeAndEmpty.size (iterable_ v) (data_ v)
}.

#[export] Instance bidirectional {T A : Type} `{Bidirectional T A} : Bidirectional (t T) A := {
  forward_only := collection;
  riterator := riterator T;
  std_rbegin v := std_rbegin (iterable_ v);
  std_rend v := std_rend (iterable_ v)
}.
End Iterated.
Export (hints) Iterated.

(** The factory function [Iterate], for a bidirectional collection: the
    constructor of [IteratedBase] points [data_] at [iterable_]. *)
Definition Iterate {T : Type} (iterable : T) : Iterated.t T :=
  Iterated.Build iterable WithSizeAndEmpty.to_iterable.

(** *** AsReferences

    A pointer is modelled like the pointer members above: [None] is a null
    pointer, [Some x] points at the object [x]. *)

Module ReferencedIterator.
Section Defs.
Context {I T : Type} `{Iterator I (option T)}.

Record t : Type := Build {
  begin_ : I;
  end_ : I
}.

(** [return **begin_;] *)
Definition op_deref (it : t) : outcome T :=
  pointer <- of_option (deref (begin_ it)) ;;
  of_option pointer.

Definition op_incr (it : t) : t := Build (incr (begin_ it)) (end_ it).

Definition op_eq (it other : t) : bool := ieq (begin_ it) (begin_ other).

#[export] Instance cursor : Cursor t T := {
  cderef := op_deref;
  cincr _ it := Ok (op_incr it);
  ceq := op_eq
}.
End Defs.
Arguments t I : clear implicits.
End ReferencedIterator.
Export (hints) ReferencedIterator.

Module ReferencedBase.
Section Defs.
Context {C T : Type} `{Collection C (option T)}.

Definition begin (iterable_ : C) : ReferencedIterator.t (iterator C) :=
  ReferencedIterator.Build (std_begin iterable_) (std_end iterable_).

Definition end_ (iterable_ : C) : ReferencedIterator.t (iterator C) :=
  ReferencedIterator.Build (std_end iterable_) (std_end iterable_).

(** Inherited from [WithSizeAndEmpty]: read through [data_], which the
    constructor of [ReferencedBase] points at [iterable_]. *)
Definition size (iterable_ : C) (data_ : WithSizeAndEmpty.pointer C) : nat :=
  WithSizeAndEmpty.size iterable_ data_.
Definition empty (iterable_ : C) (data_ : WithSizeAndEmpty.pointer C) : bool :=
  WithSizeAndEmpty.empty iterable_ data_.
End Defs.
End ReferencedBase.

Module Referenced.
Section Defs.
Context {C T : Type} `{Bidirectional C (option T)}.

Definition rbegin (iterable_ : C) : ReferencedIterator.t (riterator C) :=
  ReferencedIterator.Build (std_rbegin iterable_) (std_rend iterable_).

Definition rend (iterable_ : C) : ReferencedIterator.t (riterator C) :=
  ReferencedIterator.Build (std_rend iterable_) (std_rend iterable_).
End Defs.
End Referenced.

(** [std::unique_ptr]: owns the raw pointer that [get()] returns. *)
Module unique_ptr.
Record t (T : Type) : Type := make { get : option T }.
End unique_ptr.

Module ReferencedUniqueIterator.
Section Defs.
Context {I T : Type} `{Iterator I (unique_ptr.t T)}.

Record t : Type := Build {
  begin_ : I;
  end_ : I
}.

(** [auto& unique_pointer = *begin_;  auto* pointer = unique_pointer.get();
    return *pointer;] *)
Definition op_deref (it : t) : outcome T :=
  unique_pointer <- of_option (deref (begin_ it)) ;;
  of_option (unique_ptr.get unique_pointer).

Definition op_incr (it : t) : t := Build (incr (begin_ it)) (end_ it).

Definition op_eq (it other : t) : bool := ieq (begin_ it) (begin_ other).

#[export] Instance cursor : Cursor t T := {
  cderef := op_deref;
  cincr _ it := Ok (op_incr it);
  ceq := op_eq
}.
End Defs.
Arguments t I : clear implicits.
End ReferencedUniqueIterator.
Export (hints) ReferencedUniqueIterator.

Module ReferencedUniqueBase.
Section Defs.
Context {C T : Type} `{Collection C (unique_ptr.t T)}.

Definition begin (iterable_ : C) : ReferencedUniqueIterator.t (iterator C) :=
  ReferencedUniqueIterator.Build (std_begin iterable_) (std_end iterable_).

Definition end_ (iterable_ : C) : ReferencedUniqueIterator.t (iterator C) :=
  ReferencedUniqueIterator.Build (std_end iterable_) (std_end iterable_).
End Defs.
End ReferencedUniqueBase.

Module ReferencedUnique.
Section Defs.
Context {C T : Type} `{Bidirectional C (unique_ptr.t T)}.

Definition rbegin (iterable_ : C) : ReferencedUniqueIterator.t (riterator C) :=
  ReferencedUniqueIterator.Build (std_rbegin iterable_) (std_rend iterable_).

Definition rend (iterable_ : C) : ReferencedUniqueIterator.t (riterator C) :=
  ReferencedUniqueIterator.Build (std_rend iterable_) (std_rend iterable_).
End Defs.
End ReferencedUnique.

(** The objects a list of pointers points at, when none of them is null. *)
Fixpoint pointees {T : Type} (pointers : list (option T)) : option (list T) :=
  match pointers with
  | [] => Some []
  | None :: _ => None
  | Some x :: rest =>
      match pointees rest with
      | Some xs => Some (x :: xs)
      | None => None
      end
  end.

(** *** Views as collections

    A Join view, or a Map view with a stateless function, is itself a
    collection to the other adapters: its cursor type offers [operator*],
    [operator++] and [operator==] without any loop. *)

Section JoinedAsCollection.
Context {I1 I2 A : Type} `{Iterator I1 A} `{Iterator I2 A}.

Definition joined_deref (it : JoinedIterator.t I1 I2) : option A :=
  if negb (ieq (JoinedIterator.first_ it) (JoinedIterator.first_end_ it))
  then deref (JoinedIterator.first_ it)
  else deref (JoinedIterator.second_ it).

Definition joined_ops : Iterator (JoinedIterator.t I1 I2) A :=
  {| deref := joined_deref;
     incr := JoinedIterator.op_incr;
     ieq := JoinedIterator.op_eq |}.
End JoinedAsCollection.

(** [class Joined] as a value: the two collections it holds. *)
Record JoinedView (C1 C2 : Type) : Type := MakeJoinedView {
  joined_first_ : C1;
  joined_second_ : C2
}.

Definition joined_collection {C1 C2 A : Type} {c1 : Collection C1 A} {c2 : Collection C2 A}
  : Collection (JoinedView C1 C2) A :=
  {| iterator := JoinedIterator.t (@iterator C1 A c1) (@iterator C2 A c2);
     iterator_ops := joined_ops;
     std_begin v := JoinedBase.begin (joined_first_ v) (joined_second_ v);
     std_end v := JoinedBase.end_ (joined_first_ v) (joined_second_ v);
     std_empty v := JoinedBase.empty (joined_first_ v) (joined_second_ v);
     std_size v := JoinedBase.size (joined_first_ v) (joined_second_ v) |}.

Section MappedAsCollection.
Context {I A B : Type} `{Iterator I A}.

Definition mapped_deref (it : MappedIterator.t I A B unit) : option B :=
  match deref (MappedIterator.begin_ it) with
  | Some x => Some (fst (MappedIterator.mapping_function_ it x tt))
  | None => None
  end.

Definition mapped_incr (it : MappedIterator.t I A B unit) : MappedIterator.t I A B unit :=
  MappedIterator.Build (incr (MappedIterator.begin_ it)) (MappedIterator.end_ it)
    (MappedIterator.mapping_function_ it).

Definition mapped_ops : Iterator (MappedIterator.t I A B unit) B :=
  {| deref := mapped_deref;
     incr := mapped_incr;
     ieq := MappedIterator.op_eq |}.
End MappedAsCollection.

(** [class ForwardMapped] as a value, for a stateless function; [data_] is
    the pointer of its base class [WithSizeAndEmpty]. *)
Record MappedView (C A B : Type) : Type := MakeMappedView {
  mapped_iterable_ : C;
  mapped_function_ : A -> B;
  mapped_data_ : WithSizeAndEmpty.pointer C
}.

Definition mapped_collection {C A B : Type} {c : Collection C A}
  : Collection (MappedView C A B) B :=
  {| iterator := MappedIterator.t (@iterator C A c) A B unit;
     iterator_ops := mapped_ops;
     std_begin v := MappedBase.begin (mapped_iterable_ v) (stateless (mapped_function_ v));
     std_end v := MappedBase.end_ (mapped_iterable_ v) (stateless (mapped_function_ v));
     std_empty v := WithSizeAndEmpty.empty (mapped_iterable_ v) (mapped_data_ v);
     std_size v := WithSizeAndEmpty.size (mapped_iterable_ v) (mapped_data_ v) |}.

(** The number of leading elements of [xs] that [pred] rejects. *)
Fixpoint rejected_prefix {A : Type} (pred : A -> bool) (xs : list A) : nat :=
  match xs with
  | [] => 0
  | x :: xs' => if pred x then 0 else S (rejected_prefix pred xs')
  end.

(** What a stateful mapping function returns over [xs], call after call,
    and the world it leaves. *)
Fixpoint map_thread {A B W : Type} (f : A -> W -> B * W) (xs : list A) (w : W)
  : list B * W :=
  match xs with
  | [] => ([], w)
  | x :: xs' =>
      let r := f x w in
      let rest := map_thread f xs' (snd r) in
      (fst r :: fst rest, snd rest)
  end.

(** *** Capability traits *)

(** [details::conjunction] and [details::disjunction] over the values of
    their arguments: the primary template (no argument) is [false_type]. *)
Fixpoint conjunction (Bn : list bool) : bool :=
  match Bn with
  | [] => false
  | [B1] => B1
  | B1 :: Bn' => if B1 then conjunction Bn' else false
  end.

Fixpoint disjunction (Bn : list bool) : bool :=
  match Bn with
  | [] => false
  | [B1] => B1
  | B1 :: Bn' => if B1 then B1 else disjunction Bn'
  end.

Unset Implicit Arguments.


(** The factory functions [Join] and [Map] building these values; the
    constructor of [MappedBase] points [data_] at [iterable_]. *)
Definition Join {C1 C2 : Type} (iterable_1 : C1) (iterable_2 : C2) : JoinedView C1 C2 :=
  MakeJoinedView iterable_1 iterable_2.

Definition Map {C A B : Type} (data : C) (mapping_function : A -> B) : MappedView C A B :=
  MakeMappedView data mapping_function WithSizeAndEmpty.to_iterable.


(** ** Comparing the cursors of one view

    [first] is the cursor [begin()] (or [rbegin()]) of a view, [last] its
    [end()] (or [rend()]), and [n] the number of elements between them. *)





(** * Properties *)

(** ** The outcome monad *)

Lemma bind_Ok {T U : Type} (c : outcome T) (k : T -> outcome U) (u : U) :
  bind c k = Ok u -> exists t, c = Ok t /\ k t = Ok u.
Proof.
  destruct c; simpl; intros E; try discriminate.
  exists t; auto.
Qed.

Lemma is_nil_true {A : Type} (xs : list A) : is_nil xs = true <-> xs = [].
Proof. destruct xs; simpl; split; intros; congruence. Qed.

(** ** Valid ranges *)

Lemma valid_range_at_end {I A : Type} `{Iterator I A} (e it : I) (xs : list A) :
  valid_range e it xs -> ieq it e = is_nil xs.
Proof. inversion 1; subst; simpl; assumption. Qed.

Lemma valid_range_cons_inv {I A : Type} `{Iterator I A} (e it : I) (x : A) (xs : list A) :
  valid_range e it (x :: xs) ->
  deref it = Some x /\ valid_range e (incr it) xs.
Proof. inversion 1; subst; split; assumption. Qed.

(** ** Iterators of lists *)

Section ListRanges.
Context {A : Type}.

Lemma list_range_from (l : list A) :
  forall k, k <= length l ->
    valid_range (std_end l) (ListIterator l k) (skipn k l).
Proof.
  intros k Hk.
  remember (length l - k) as d eqn:Hd.
  revert k Hk Hd.
  induction d as [|d IH]; intros k Hk Hd.
  - assert (k = length l) by lia. subst k.
    rewrite skipn_all. apply valid_range_end. simpl. apply Nat.eqb_refl.
  - assert (Hlt : k < length l) by lia.
    destruct (nth_error l k) as [x|] eqn:Hx.
    2:{ apply nth_error_None in Hx. lia. }
    assert (Hs : skipn k l = x :: skipn (S k) l).
    { clear - Hx. revert k Hx. induction l as [|a l IHl]; intros [|k] Hx; simpl in *;
        try discriminate.
      - congruence.
      - apply IHl in Hx. destruct l; simpl in *; auto. }
    rewrite Hs. apply valid_range_step.
    + simpl. apply Nat.eqb_neq. lia.
    + exact Hx.
    + simpl. apply IH; lia.
Qed.

Lemma list_range (l : list A) : valid_range (std_end l) (std_begin l) l.
Proof. exact (list_range_from l 0 (Nat.le_0_l _)). Qed.

Lemma list_rrange_from (l : list A) :
  forall k, k <= length l ->
    valid_range (std_rend l) (ReverseIterator (ListIterator l k)) (rev (firstn k l)).
Proof.
  induction k as [|k IH]; intros Hk.
  - simpl. apply valid_range_end. reflexivity.
  - destruct (nth_error l k) as [x|] eqn:Hx.
    2:{ apply nth_error_None in Hx. lia. }
    assert (Hf : firstn (S k) l = firstn k l ++ [x]).
    { clear - Hx. revert k Hx. induction l as [|a l IHl]; intros [|k] Hx; simpl in *;
        try discriminate.
      - congruence.
      - f_equal. apply IHl. exact Hx. }
    rewrite Hf, rev_app_distr. simpl.
    apply valid_range_step.
    + reflexivity.
    + simpl. exact Hx.
    + simpl. apply IH. lia.
Qed.

Lemma list_rrange (l : list A) : valid_range (std_rend l) (std_rbegin l) (rev l).
Proof.
  pose proof (list_rrange_from l (length l) (Nat.le_refl _)) as H.
  rewrite firstn_all in H. exact H.
Qed.

(** A forward iterator from which the end of [l] is reached over [xs]
    stands [length xs] places before the end. *)
Lemma list_range_pos (l : list A) (it : list_iterator A) (xs : list A) :
  valid_range (std_end l) it xs ->
  length xs <= length l /\ pos it = length l - length xs.
Proof.
  induction 1 as [it E | it x xs E D V [IHle IHpos]].
  - simpl in E. apply Nat.eqb_eq in E. simpl. lia.
  - simpl in IHpos. simpl. lia.
Qed.

End ListRanges.

(** ** Traversing by a representation invariant

    [repr c xs] says that cursor [c] has exactly [xs] left to visit.  When
    dereferencing and advancing respect [repr], and comparison with [last]
    tells whether anything is left, the loop collects [xs]. *)

Section Representation.
Context {I A : Type} `{Cursor I A}.
Variable repr : I -> list A -> Prop.
Variable need : nat.
Variable last : I.

Hypothesis repr_step : forall c x xs,
  repr c (x :: xs) ->
  cderef c = Ok x /\
  forall fuel, need <= fuel -> exists c', cincr fuel c = Ok c' /\ repr c' xs.

Hypothesis repr_last : forall c xs, repr c xs -> ceq c last = is_nil xs.

Lemma range_for_loop_repr :
  forall xs c inner fuel,
    repr c xs -> need <= inner -> length xs < fuel ->
    range_for_loop inner fuel c last = Ok xs.
Proof.
  induction xs as [|x xs IH]; intros c inner fuel R Hin Hfuel;
    destruct fuel as [|fuel]; try (simpl in Hfuel; lia); simpl.
  - rewrite (repr_last _ _ R). reflexivity.
  - rewrite (repr_last _ _ R). simpl.
    destruct (repr_step _ _ _ R) as [D Hadv].
    destruct (Hadv inner Hin) as [c' [E R']].
    rewrite D, E. simpl.
    rewrite (IH c' inner fuel R' Hin) by (simpl in Hfuel; lia).
    reflexivity.
Qed.

Lemma range_for_repr :
  forall xs c fuel,
    repr c xs -> need <= fuel -> length xs < fuel ->
    range_for fuel c last = Ok xs.
Proof. intros. apply range_for_loop_repr; assumption. Qed.

Lemma advance_repr :
  forall n xs c fuel,
    repr c xs -> need <= fuel -> n <= length xs ->
    exists c', advance fuel n c = Ok c' /\ repr c' (skipn n xs).
Proof.
  induction n as [|n IH]; intros xs c fuel R Hfuel Hn.
  - exists c. split; [reflexivity | exact R].
  - destruct xs as [|x xs]; [simpl in Hn; lia|].
    destruct (repr_step _ _ _ R) as [_ Hadv].
    destruct (Hadv fuel Hfuel) as [c' [E R']].
    destruct (IH xs c' fuel R' Hfuel) as [c'' [E' R'']]; [simpl in Hn; lia|].
    exists c''. simpl. rewrite E. simpl. split; assumption.
Qed.

End Representation.

(** The loop over the iterators of a collection itself. *)
Lemma range_for_valid_range {I A : Type} `{Iterator I A} (last : I) :
  forall xs it fuel,
    valid_range last it xs -> length xs < fuel ->
    range_for fuel it last = Ok xs.
Proof.
  intros xs it fuel V Hfuel.
  apply (range_for_repr (valid_range last) 0 last); try assumption; try lia.
  - intros c x xs' R. inversion R as [| ? ? ? E D V']; subst. split.
    + simpl. rewrite D. reflexivity.
    + intros f _. exists (incr c). split; [reflexivity | assumption].
  - intros c xs' R. inversion R; subst; simpl; assumption.
Qed.

(** ** Zip *)

Section ZipFacts.
Context {I1 I2 A1 A2 : Type} `{Iterator I1 A1} `{Iterator I2 A2}.
Variables (e1 : I1) (e2 : I2).

Lemma zip_IsAtEnd (c : ZippedIterator.t I1 I2 A1 A2) xs ys :
  zip_state e1 e2 c xs ys ->
  ZippedIterator.IsAtEnd c = is_nil (zipped xs ys).
Proof.
  intros (E1 & E2 & V1 & V2 & _).
  unfold ZippedIterator.IsAtEnd. rewrite E1, E2.
  rewrite (valid_range_at_end _ _ _ V1), (valid_range_at_end _ _ _ V2).
  destruct xs, ys; reflexivity.
Qed.

(** [SetValue] on a cursor whose iterators have [xs] and [ys] left. *)
Lemma zip_SetValue (b1 : I1) (b2 : I2) (v : ZippedValue.t A1 A2) xs ys :
  valid_range e1 b1 xs -> valid_range e2 b2 ys ->
  exists c, ZippedIterator.SetValue (ZippedIterator.Build b1 e1 b2 e2 v) = Ok c /\
            zip_state e1 e2 c xs ys.
Proof.
  intros V1 V2.
  unfold ZippedIterator.SetValue, ZippedIterator.IsAtEnd. simpl.
  rewrite (valid_range_at_end _ _ _ V1), (valid_range_at_end _ _ _ V2).
  destruct xs as [|x xs]; simpl.
  - eexists. split; [reflexivity|]. repeat split; simpl; auto.
  - destruct ys as [|y ys]; simpl.
    + eexists. split; [reflexivity|]. repeat split; simpl; auto.
    + inversion V1 as [| ? ? ? _ D1 _]; subst.
      inversion V2 as [| ? ? ? _ D2 _]; subst.
      rewrite D1, D2. simpl.
      eexists. split; [reflexivity|]. repeat split; simpl; auto.
Qed.

Lemma zip_repr_step (c : ZippedIterator.t I1 I2 A1 A2) z zs :
  zip_repr e1 e2 c (z :: zs) ->
  cderef c = Ok z /\
  forall fuel, 0 <= fuel -> exists c', cincr fuel c = Ok c' /\ zip_repr e1 e2 c' zs.
Proof.
  intros (xs & ys & S & Ez).
  destruct xs as [|x xs]; [discriminate|].
  destruct ys as [|y ys]; [discriminate|].
  unfold zipped in Ez. simpl in Ez. injection Ez as Ez Ezs.
  destruct S as (E1 & E2 & V1 & V2 & Ev).
  split.
  - simpl. unfold ZippedIterator.op_deref. rewrite Ev, Ez. reflexivity.
  - intros fuel _. simpl. unfold ZippedIterator.op_incr. rewrite E1, E2.
    clear E1 E2.
    inversion V1 as [| ? ? ? _ _ V1']; subst.
    inversion V2 as [| ? ? ? _ _ V2']; subst.
    destruct (zip_SetValue _ _ (ZippedIterator.value_ c) _ _ V1' V2') as (c' & E & S').
    exists c'. split; [exact E|]. exists xs, ys. split; [exact S' | reflexivity].
Qed.

Lemma zip_repr_last (last c : ZippedIterator.t I1 I2 A1 A2) zs :
  ZippedIterator.IsAtEnd last = true ->
  zip_repr e1 e2 c zs -> ceq c last = is_nil zs.
Proof.
  intros L (xs & ys & S & ->). simpl. unfold ZippedIterator.op_eq.
  rewrite L, (zip_IsAtEnd _ _ _ S). destruct (is_nil (zipped xs ys)); reflexivity.
Qed.

(** The loop from a cursor built over two ranges to a cursor built at
    their ends collects the zipped elements. *)
Lemma zip_traverse (b1 : I1) (b2 : I2) xs ys fuel :
  valid_range e1 b1 xs -> valid_range e2 b2 ys ->
  ieq e1 e1 = true ->
  length (zipped xs ys) < fuel ->
  traverse fuel (ZippedIterator.make b1 e1 b2 e2) (ZippedIterator.make e1 e1 e2 e2)
  = Ok (zipped xs ys).
Proof.
  intros V1 V2 R Hfuel.
  unfold traverse, ZippedIterator.make.
  destruct (zip_SetValue b1 b2 (ZippedValue.default A1 A2) xs ys V1 V2) as (c & E & S).
  rewrite E. simpl.
  unfold ZippedIterator.SetValue at 1. unfold ZippedIterator.IsAtEnd at 1. simpl.
  rewrite R. simpl.
  apply (range_for_repr (zip_repr e1 e2) 0); try lia.
  - apply zip_repr_step.
  - intros c' zs. apply zip_repr_last. unfold ZippedIterator.IsAtEnd. simpl.
    rewrite R. reflexivity.
  - exists xs, ys. split; [exact S | reflexivity].
Qed.

End ZipFacts.

Lemma zipped_length {A1 A2 : Type} (xs : list A1) (ys : list A2) :
  length (zipped xs ys) = Nat.min (length xs) (length ys).
Proof. unfold zipped. rewrite length_map. apply length_combine. Qed.

Lemma zipped_nth_error {A1 A2 : Type} (xs : list A1) (ys : list A2) :
  forall i, i < Nat.min (length xs) (length ys) ->
    nth_error (zipped xs ys) i
    = Some (ZippedValue.make (nth_error xs i) (nth_error ys i)).
Proof.
  revert ys. induction xs as [|x xs IH]; intros [|y ys] i Hi; simpl in Hi; try lia.
  destruct i as [|i]; simpl.
  - reflexivity.
  - apply IH. lia.
Qed.

Lemma combine_append {A1 A2 : Type} (xs xs' : list A1) (ys ys' : list A2) :
  length xs = length ys ->
  combine (xs ++ xs') (ys ++ ys') = combine xs ys ++ combine xs' ys'.
Proof.
  revert ys. induction xs as [|x xs IH]; intros [|y ys] E; simpl in E; try discriminate.
  - reflexivity.
  - simpl. f_equal. apply IH. lia.
Qed.

Lemma zipped_rev {A1 A2 : Type} (xs : list A1) (ys : list A2) :
  length xs = length ys ->
  zipped (rev xs) (rev ys) = rev (zipped xs ys).
Proof.
  revert ys. induction xs as [|x xs IH]; intros [|y ys] E; simpl in E; try discriminate.
  - reflexivity.
  - injection E as E. simpl. unfold zipped in *.
    rewrite combine_append by (rewrite !length_rev; exact E).
    rewrite map_app. simpl. rewrite IH by exact E. reflexivity.
Qed.

(** Reverse traversal of a Zip view pairs the two sources from their backs. *)
Lemma zip_reverse_traversal (A1 A2 : Type) (s1 : list A1) (s2 : list A2) (fuel : nat) :
  Nat.min (length s1) (length s2) < fuel ->
  traverse fuel (Zipped.rbegin s1 s2) (Zipped.rend s1 s2) = Ok (zipped (rev s1) (rev s2)).
Proof.
  intros Hfuel. unfold Zipped.rbegin, Zipped.rend.
  apply zip_traverse.
  - apply list_rrange.
  - apply list_rrange.
  - reflexivity.
  - rewrite zipped_length, !length_rev. exact Hfuel.
Qed.

(** On sources of the same length the reverse traversal is the forward
    traversal backwards. *)
Lemma zip_reverse_same_length (A1 A2 : Type) (s1 : list A1) (s2 : list A2) (fuel : nat) :
  length s1 = length s2 ->
  length s1 < fuel ->
  traverse fuel (Zipped.rbegin s1 s2) (Zipped.rend s1 s2) = Ok (rev (zipped s1 s2)).
Proof.
  intros E Hfuel. rewrite zip_reverse_traversal by lia.
  rewrite zipped_rev by exact E. reflexivity.
Qed.

(** C1 (the code falls short of it).  A Zip view over [1;2;3] and [10;20]:
    the forward traversal visits (1,10), (2,20), while the traversal from
    [rbegin()] to [rend()] visits (3,20), (2,10) -- pairs the forward
    traversal never produces -- because [Zipped::rbegin] starts both
    sources at their last element whatever their lengths. *)
Theorem zip_reverse_unequal_lengths :
  traverse 5 (ZippedBase.begin [1; 2; 3] [10; 20]) (ZippedBase.end_ [1; 2; 3] [10; 20])
  = Ok [ZippedValue.make (Some 1) (Some 10); ZippedValue.make (Some 2) (Some 20)]
  /\
  traverse 5 (Zipped.rbegin [1; 2; 3] [10; 20]) (Zipped.rend [1; 2; 3] [10; 20])
  = Ok [ZippedValue.make (Some 3) (Some 20); ZippedValue.make (Some 2) (Some 10)].
Proof. split; reflexivity. Qed.

(** C3.  Forward traversal of [Zip(s1, s2)] yields the pairs of [s1] and
    [s2] position by position: there are [min |s1| |s2|] of them and the
    [i]-th pairs the [i]-th element of [s1] with the [i]-th of [s2];
    [size()] is that minimum and [empty()] holds exactly when one of the
    sources is empty. *)
Theorem zip_forward_traversal (A1 A2 : Type) (s1 : list A1) (s2 : list A2) (fuel : nat) :
  Nat.min (length s1) (length s2) < fuel ->
  traverse fuel (ZippedBase.begin s1 s2) (ZippedBase.end_ s1 s2) = Ok (zipped s1 s2) /\
  length (zipped s1 s2) = Nat.min (length s1) (length s2) /\
  (forall i, i < Nat.min (length s1) (length s2) ->
     nth_error (zipped s1 s2) i
     = Some (ZippedValue.make (nth_error s1 i) (nth_error s2 i))) /\
  ZippedBase.size s1 s2 = Nat.min (length s1) (length s2) /\
  (ZippedBase.empty s1 s2 = true <-> s1 = [] \/ s2 = []).
Proof.
  intros Hfuel. repeat split.
  - unfold ZippedBase.begin, ZippedBase.end_. apply zip_traverse.
    + apply list_range.
    + apply list_range.
    + simpl. apply Nat.eqb_refl.
    + rewrite zipped_length. exact Hfuel.
  - apply zipped_length.
  - apply zipped_nth_error.
  - unfold ZippedBase.empty. simpl. destruct s1, s2; simpl; intros; auto; discriminate.
  - unfold ZippedBase.empty. simpl. intros [-> | ->]; [|destruct s1]; reflexivity.
Qed.

Lemma zip_forward_traversal_witness :
  Nat.min (length [1; 2; 3; 4; 5]) (length [10; 20; 30]) < 4 /\
  traverse 4 (ZippedBase.begin [1; 2; 3; 4; 5] [10; 20; 30])
             (ZippedBase.end_ [1; 2; 3; 4; 5] [10; 20; 30])
  = Ok (zipped [1; 2; 3; 4; 5] [10; 20; 30]).
Proof.
  split.
  - simpl. lia.
  - apply (zip_forward_traversal nat nat [1; 2; 3; 4; 5] [10; 20; 30] 4). simpl. lia.
Defined.

(** ** Join *)

Section JoinFacts.
Context {I1 I2 A : Type} `{Iterator I1 A} `{Iterator I2 A}.
Variables (e1 : I1) (e2 : I2) (all_second : list A).

Lemma join_repr_step (c : JoinedIterator.t I1 I2) z zs :
  join_repr e1 e2 all_second c (z :: zs) ->
  cderef c = Ok z /\
  forall fuel, 0 <= fuel -> exists c', cincr fuel c = Ok c' /\ join_repr e1 e2 all_second c' zs.
Proof.
  intros (xs & ys & E1 & E2 & V1 & V2 & Hall & Ez).
  simpl. unfold JoinedIterator.op_deref, JoinedIterator.op_incr.
  rewrite E1, (valid_range_at_end _ _ _ V1).
  destruct xs as [|x xs]; simpl in *.
  - subst ys. inversion V2 as [| ? ? ? N2 D2 V2']; subst.
    rewrite D2. split; [reflexivity|].
    intros fuel _. eexists. split; [reflexivity|].
    exists [], zs. simpl. repeat split; auto. congruence.
  - injection Ez as -> ->. inversion V1 as [| ? ? ? N1 D1 V1']; subst.
    rewrite D1. split; [reflexivity|].
    intros fuel _. eexists. split; [reflexivity|].
    exists xs, ys. simpl. repeat split; auto.
    intros _. apply Hall. discriminate.
Qed.

Lemma join_repr_last (c : JoinedIterator.t I1 I2) zs :
  join_repr e1 e2 all_second c zs ->
  ceq c (JoinedIterator.Build e1 e1 e2 e2) = is_nil zs.
Proof.
  intros (xs & ys & E1 & E2 & V1 & V2 & _ & ->).
  simpl. unfold JoinedIterator.op_eq. simpl.
  rewrite (valid_range_at_end _ _ _ V1), (valid_range_at_end _ _ _ V2).
  destruct xs, ys; reflexivity.
Qed.

Lemma join_repr_begin (b1 : I1) (b2 : I2) xs :
  valid_range e1 b1 xs -> valid_range e2 b2 all_second ->
  join_repr e1 e2 all_second (JoinedIterator.Build b1 e1 b2 e2) (xs ++ all_second).
Proof.
  intros V1 V2. exists xs, all_second. simpl. repeat split; auto.
Qed.

Lemma join_traverse (b1 : I1) (b2 : I2) xs fuel :
  valid_range e1 b1 xs -> valid_range e2 b2 all_second ->
  length (xs ++ all_second) < fuel ->
  range_for fuel (JoinedIterator.Build b1 e1 b2 e2) (JoinedIterator.Build e1 e1 e2 e2)
  = Ok (xs ++ all_second).
Proof.
  intros V1 V2 Hfuel.
  apply (range_for_repr (join_repr e1 e2 all_second) 0); try lia.
  - apply join_repr_step.
  - apply join_repr_last.
  - apply join_repr_begin; assumption.
Qed.

End JoinFacts.

(** C6.  Forward traversal of [Join(s1, s2)] yields the elements of [s1]
    followed by those of [s2]; reverse traversal yields [s2] back to front
    followed by [s1] back to front. *)
Theorem join_traversal (A : Type) (s1 s2 : list A) (fuel : nat) :
  length s1 + length s2 < fuel ->
  range_for fuel (JoinedBase.begin s1 s2) (JoinedBase.end_ s1 s2) = Ok (s1 ++ s2) /\
  range_for fuel (Joined.rbegin s1 s2) (Joined.rend s1 s2) = Ok (rev s2 ++ rev s1).
Proof.
  intros Hfuel. split.
  - unfold JoinedBase.begin, JoinedBase.end_.
    apply join_traverse; try apply list_range.
    rewrite length_app. exact Hfuel.
  - unfold Joined.rbegin, Joined.rend.
    apply join_traverse; try apply list_rrange.
    rewrite length_app, !length_rev. lia.
Qed.

Lemma join_traversal_witness :
  length [1; 2; 3] + length [4; 5; 6] < 7 /\
  range_for 7 (JoinedBase.begin [1; 2; 3] [4; 5; 6]) (JoinedBase.end_ [1; 2; 3] [4; 5; 6])
  = Ok ([1; 2; 3] ++ [4; 5; 6]) /\
  range_for 7 (Joined.rbegin [1; 2; 3] [4; 5; 6]) (Joined.rend [1; 2; 3] [4; 5; 6])
  = Ok (rev [4; 5; 6] ++ rev [1; 2; 3]).
Proof.
  split.
  - simpl. lia.
  - apply (join_traversal nat [1; 2; 3] [4; 5; 6] 7). simpl. lia.
Defined.

(** The cases of the test [JoinTest.WorksForEmptyCollections]. *)
Example join_empty_collections :
  range_for 2 (JoinedBase.begin (@nil nat) [1]) (JoinedBase.end_ (@nil nat) [1]) = Ok [1] /\
  range_for 2 (JoinedBase.begin [1] (@nil nat)) (JoinedBase.end_ [1] (@nil nat)) = Ok [1] /\
  range_for 2 (JoinedBase.begin (@nil nat) (@nil nat)) (JoinedBase.end_ (@nil nat) (@nil nat))
  = Ok [].
Proof. repeat split; reflexivity. Qed.

(** ** Enumerate *)

Lemma int_wrap_in_range (z : Z) :
  (- 2147483648 <= z <= INT_MAX)%Z -> int_wrap z = z.
Proof.
  unfold int_wrap, INT_MAX. intros Hz.
  rewrite Z.mod_small by lia. lia.
Qed.

Lemma items_from_is_nil {A : Type} (p d : Z) (xs : list A) :
  is_nil (items_from p d xs) = is_nil xs.
Proof. destruct xs; reflexivity. Qed.

Lemma items_from_length {A : Type} (d : Z) (xs : list A) :
  forall p, length (items_from p d xs) = length xs.
Proof. induction xs as [|x xs IH]; intros p; simpl; [|rewrite IH]; reflexivity. Qed.

Lemma items_from_app {A : Type} (d : Z) (xs ys : list A) :
  forall p,
    items_from p d (xs ++ ys)
    = items_from p d xs ++ items_from (p + Z.of_nat (length xs) * d) d ys.
Proof.
  induction xs as [|x xs IH]; intros p.
  - simpl. f_equal. lia.
  - cbn [app items_from length]. rewrite IH. f_equal. f_equal. f_equal. lia.
Qed.

Section EnumerateFacts.
Context {I A : Type} `{Iterator I A}.
Variables (e : I) (d : Z).

(** [SetItem] on a cursor whose iterator has [xs] left. *)
Lemma enum_SetItem (b : I) (p : Z) (item : Item.t A) xs :
  valid_range e b xs ->
  (forall k, (0 <= k <= Z.of_nat (length xs))%Z ->
     (- 2147483648 <= p + k * d <= INT_MAX)%Z) ->
  exists c,
    EnumeratedIterator.SetItem (EnumeratedIterator.Build b e p d item) = Ok c /\
    enum_repr e d c (items_from p d xs).
Proof.
  intros V R. unfold EnumeratedIterator.SetItem. simpl.
  rewrite (valid_range_at_end _ _ _ V).
  destruct xs as [|x xs]; simpl.
  - eexists. split; [reflexivity|]. exists []. simpl.
    split; [reflexivity|]. split; [reflexivity|]. split; [exact V|].
    split; [exact R|]. split; [trivial | reflexivity].
  - inversion V as [| ? ? ? _ D _]; subst. rewrite D. simpl.
    eexists. split; [reflexivity|]. exists (x :: xs). simpl.
    split; [reflexivity|]. split; [reflexivity|]. split; [exact V|].
    split; [exact R|]. split; reflexivity.
Qed.

Lemma enum_repr_step (c : EnumeratedIterator.t I A) item items :
  enum_repr e d c (item :: items) ->
  cderef c = Ok item /\
  forall fuel, 0 <= fuel -> exists c', cincr fuel c = Ok c' /\ enum_repr e d c' items.
Proof.
  intros (xs & E & Ed & V & R & Hitem & Eitems).
  destruct xs as [|x xs]; [discriminate|].
  simpl in Eitems. injection Eitems as -> ->.
  split.
  - simpl. unfold EnumeratedIterator.op_deref. rewrite Hitem. reflexivity.
  - intros fuel _. simpl. unfold EnumeratedIterator.op_incr. rewrite E, Ed.
    inversion V as [| ? ? ? _ _ V']; subst x0 xs0 it.
    unfold int_add. rewrite int_wrap_in_range.
    2:{ specialize (R 1%Z). simpl length in R. lia. }
    apply enum_SetItem; [exact V'|].
    intros k Hk. specialize (R (k + 1)%Z). simpl length in R. lia.
Qed.

Lemma enum_repr_last (last c : EnumeratedIterator.t I A) items :
  EnumeratedIterator.begin_ last = e ->
  enum_repr e d c items -> ceq c last = is_nil items.
Proof.
  intros L (xs & _ & _ & V & _ & _ & ->).
  simpl. unfold EnumeratedIterator.op_eq. rewrite L.
  rewrite items_from_is_nil. apply valid_range_at_end. exact V.
Qed.

Lemma enum_traverse (b : I) (p q : Z) xs fuel :
  valid_range e b xs ->
  ieq e e = true ->
  (forall k, (0 <= k <= Z.of_nat (length xs))%Z ->
     (- 2147483648 <= p + k * d <= INT_MAX)%Z) ->
  length xs < fuel ->
  traverse fuel (EnumeratedIterator.make b e p d) (EnumeratedIterator.make e e q d)
  = Ok (items_from p d xs).
Proof.
  intros V Refl R Hfuel. unfold traverse, EnumeratedIterator.make.
  destruct (enum_SetItem b p (Item.default A) xs V R) as (c & E & Hc).
  rewrite E. simpl.
  unfold EnumeratedIterator.SetItem at 1. simpl. rewrite Refl. simpl.
  apply (range_for_repr (enum_repr e d) 0); try lia.
  - apply enum_repr_step.
  - intros c' items. apply enum_repr_last. reflexivity.
  - exact Hc.
  - rewrite items_from_length. exact Hfuel.
Qed.

End EnumerateFacts.

Lemma enumerated_from_items {A : Type} (xs : list A) :
  forall k,
    map (fun p => Item.make (Z.of_nat (fst p)) (Some (snd p)))
        (combine (seq k (length xs)) xs)
    = items_from (Z.of_nat k) 1 xs.
Proof.
  induction xs as [|x xs IH]; intros k; simpl.
  - reflexivity.
  - rewrite IH. do 2 f_equal. lia.
Qed.

Lemma enumerated_items {A : Type} (xs : list A) : enumerated xs = items_from 0 1 xs.
Proof. apply (enumerated_from_items xs 0). Qed.

Lemma items_from_rev {A : Type} (xs : list A) :
  forall p,
    rev (items_from p 1 xs)
    = items_from (p + Z.of_nat (length xs) - 1) (-1) (rev xs).
Proof.
  induction xs as [|x xs IH]; intros p.
  - reflexivity.
  - cbn [items_from rev length]. rewrite IH, items_from_app, length_rev.
    simpl items_from. do 2 f_equal; try lia. f_equal. lia.
Qed.

Lemma enumerated_positions {A : Type} (xs : list A) :
  map (@Item.Position A) (enumerated xs) = map Z.of_nat (seq 0 (length xs)).
Proof.
  unfold enumerated. generalize 0 as k.
  induction xs as [|x xs IH]; intros k; simpl; [|rewrite IH]; reflexivity.
Qed.

Lemma enumerated_values {A : Type} (xs : list A) :
  map (@Item.Value A) (enumerated xs) = map Some xs.
Proof.
  unfold enumerated. generalize 0 as k.
  induction xs as [|x xs IH]; intros k; simpl; [|rewrite IH]; reflexivity.
Qed.

(** The first item of a reverse traversal: the last element, at position
    [MaxPosition()], whatever that conversion of the size gives. *)
Lemma enum_rbegin_first (A : Type) (x : A) (n : nat) :
  0 < n ->
  exists c,
    Enumerated.rbegin (repeat x n) WithSizeAndEmpty.to_iterable = Ok c /\
    EnumeratedIterator.op_deref c
    = Item.make (int_add (int_wrap (Z.of_nat n)) (-1)) (Some x).
Proof.
  intros Hn.
  unfold Enumerated.rbegin, Enumerated.MaxPosition, EnumeratedBase.size,
    WithSizeAndEmpty.size, EnumeratedIterator.make, EnumeratedIterator.SetItem.
  cbn [EnumeratedIterator.begin_ EnumeratedIterator.end_ EnumeratedIterator.position_
       EnumeratedIterator.position_delta_ std_size std_rbegin std_rend std_begin std_end
       list_bidirectional list_collection forward_only WithSizeAndEmpty.Data
       ieq deref riterator_ops reverse_iterator_ops current pos coll].
  rewrite repeat_length.
  destruct n as [|p]; [lia|].
  cbn [Nat.eqb negb].
  assert (D : nth_error (repeat x (S p)) p = Some x)
    by (apply nth_error_repeat; lia).
  rewrite D. cbn [of_option bind].
  eexists. split; reflexivity.
Qed.

(** The reverse traversal counts down from [MaxPosition()]: one less than
    the size of the collection [data_] points at. *)
Lemma enum_reverse_traverse {C A : Type} `{Bidirectional C A}
    (iterable_ : C) (data_ : WithSizeAndEmpty.pointer C) (xs : list A) (fuel : nat) :
  valid_range (std_rend iterable_) (std_rbegin iterable_) xs ->
  ieq (std_rend iterable_) (std_rend iterable_) = true ->
  (Z.of_nat (length xs) <= INT_MAX)%Z ->
  (Z.of_nat (EnumeratedBase.size iterable_ data_) <= INT_MAX)%Z ->
  length xs < fuel ->
  traverse fuel (Enumerated.rbegin iterable_ data_) (Enumerated.rend iterable_ data_)
  = Ok (items_from (Z.of_nat (EnumeratedBase.size iterable_ data_) - 1) (-1) xs).
Proof.
  intros V Refl Hxs Hsize Hfuel. unfold INT_MAX in Hxs, Hsize.
  unfold Enumerated.rbegin, Enumerated.rend, Enumerated.MaxPosition, Enumerated.kDecrement.
  assert (Emax : int_add (int_wrap (Z.of_nat (EnumeratedBase.size iterable_ data_))) (-1)
                 = (Z.of_nat (EnumeratedBase.size iterable_ data_) - 1)%Z).
  { unfold int_add.
    rewrite (int_wrap_in_range (Z.of_nat (EnumeratedBase.size iterable_ data_)))
      by (unfold INT_MAX; lia).
    rewrite int_wrap_in_range by (unfold INT_MAX; lia). lia. }
  rewrite Emax.
  apply enum_traverse.
  - exact V.
  - exact Refl.
  - intros k Hk. unfold INT_MAX. lia.
  - exact Hfuel.
Qed.

(** C7 (the claim as stated fails).  Positions are [int]s.  Over a source
    of 2^31 + 1 elements the reverse traversal starts at the position
    [static_cast<int>(size()) - 1], which is -2^31 and not |S| - 1 = 2^31. *)
Lemma enumerate_reverse_position_wraps :
  exists c,
    Enumerated.rbegin (repeat tt (Z.to_nat 2147483649)) WithSizeAndEmpty.to_iterable = Ok c /\
    EnumeratedIterator.op_deref c = Item.make (-2147483648)%Z (Some tt).
Proof.
  destruct (enum_rbegin_first unit tt (Z.to_nat 2147483649)) as (c & E & D); [lia|].
  exists c. split; [exact E|].
  rewrite D, Z2Nat.id by lia. reflexivity.
Qed.

(** C7 (as amended).  Over a source [s] of at most [INT_MAX] elements,
    forward traversal of [Enumerate(s)] pairs the elements of [s], in
    order, with the positions 0, 1, ..., |s|-1.  When [size()] of the view
    reports [|s|] -- its [data_] points at [s] itself, as the constructor
    leaves it -- reverse traversal yields the same items back to front, so
    its positions run |s|-1, ..., 1, 0 along the elements of [s] from the
    last to the first. *)
Theorem enumerate_traversal (A : Type) (s : list A)
    (data_ : WithSizeAndEmpty.pointer (list A)) (fuel : nat) :
  (Z.of_nat (length s) <= INT_MAX)%Z ->
  length s < fuel ->
  EnumeratedBase.size s data_ = length s ->
  traverse fuel (EnumeratedBase.begin s) (EnumeratedBase.end_ s) = Ok (enumerated s) /\
  traverse fuel (Enumerated.rbegin s data_) (Enumerated.rend s data_)
  = Ok (rev (enumerated s)) /\
  EnumeratedBase.size s WithSizeAndEmpty.to_iterable = length s /\
  map (@Item.Position A) (enumerated s) = map Z.of_nat (seq 0 (length s)) /\
  map (@Item.Value A) (enumerated s) = map Some s.
Proof.
  intros Hmax Hfuel Hsize. split; [|split; [|split; [|split]]].
  - rewrite enumerated_items. unfold EnumeratedBase.begin, EnumeratedBase.end_.
    apply enum_traverse.
    + apply list_range.
    + simpl. apply Nat.eqb_refl.
    + intros k Hk. unfold INT_MAX in *. unfold EnumeratedBase.kIncrement. lia.
    + exact Hfuel.
  - rewrite enumerated_items, items_from_rev.
    assert (Hsize' : @EnumeratedBase.size _ _ forward_only s data_ = length s)
      by exact Hsize.
    rewrite (enum_reverse_traverse s data_ (rev s) fuel).
    + rewrite Hsize'. do 2 f_equal; lia.
    + apply list_rrange.
    + reflexivity.
    + rewrite length_rev. exact Hmax.
    + rewrite Hsize'. exact Hmax.
    + rewrite length_rev. exact Hfuel.
  - reflexivity.
  - apply enumerated_positions.
  - apply enumerated_values.
Qed.

Lemma enumerate_traversal_witness :
  (Z.of_nat (length [5; 6; 7]) <= INT_MAX)%Z /\
  length [5; 6; 7] < 4 /\
  EnumeratedBase.size [5; 6; 7] WithSizeAndEmpty.to_iterable = length [5; 6; 7] /\
  traverse 4 (EnumeratedBase.begin [5; 6; 7]) (EnumeratedBase.end_ [5; 6; 7])
  = Ok (enumerated [5; 6; 7]) /\
  traverse 4 (Enumerated.rbegin [5; 6; 7] WithSizeAndEmpty.to_iterable)
             (Enumerated.rend [5; 6; 7] WithSizeAndEmpty.to_iterable)
  = Ok (rev (enumerated [5; 6; 7])).
Proof.
  assert (Hmax : (Z.of_nat (length [5; 6; 7]) <= INT_MAX)%Z) by (vm_compute; discriminate).
  assert (Hfuel : length [5; 6; 7] < 4) by (simpl; lia).
  assert (Hsize : EnumeratedBase.size [5; 6; 7] WithSizeAndEmpty.to_iterable
                  = length [5; 6; 7]) by reflexivity.
  pose proof (enumerate_traversal nat [5; 6; 7] WithSizeAndEmpty.to_iterable 4
                Hmax Hfuel Hsize) as (F & R & _).
  repeat split; assumption.
Defined.

(** ** Filter *)

Section FilterFacts.
Context {I A : Type} `{Iterator I A}.
Variables (e : I) (f : A -> bool) (n : nat).

(** The skip loop stops on the first accepted element, or at the end. *)
Lemma filter_skip :
  forall xs b fuel,
    valid_range e b xs -> length xs <= n -> length xs < fuel ->
    exists c,
      FilterIterator.SkipFilteredEntries fuel (FilterIterator.Build b e f) = Ok c /\
      filter_repr e f n c (filter f xs).
Proof.
  induction xs as [|x xs IH]; intros b fuel V Hn Hfuel;
    (destruct fuel as [|fuel]; [simpl in Hfuel; lia|]);
    simpl; unfold FilterIterator.IsEnd, FilterIterator.IsFiltered; simpl;
    rewrite (valid_range_at_end _ _ _ V); simpl.
  - eexists. split; [reflexivity|]. exists []. simpl.
    split; [reflexivity|]. split; [reflexivity|]. split; [exact V|].
    split; [lia|]. split; [trivial | reflexivity].
  - inversion V as [| ? ? ? _ D V']; subst x0 xs0 it.
    rewrite D. simpl. destruct (f x) eqn:Fx; simpl.
    + eexists. split; [reflexivity|]. exists (x :: xs). simpl.
      split; [reflexivity|]. split; [reflexivity|]. split; [exact V|].
      split; [exact Hn|]. split; [exact Fx|]. rewrite Fx. reflexivity.
    + apply IH; [exact V' | simpl in Hn; lia | simpl in Hfuel; lia].
Qed.

Lemma filter_repr_step (c : FilterIterator.t I A) y ys :
  filter_repr e f n c (y :: ys) ->
  cderef c = Ok y /\
  forall fuel, S n <= fuel -> exists c', cincr fuel c = Ok c' /\ filter_repr e f n c' ys.
Proof.
  intros (xs & E & Ef & V & Hn & Hx & Eys).
  destruct xs as [|x xs]; [discriminate|].
  simpl in Eys. rewrite Hx in Eys. injection Eys as -> ->.
  inversion V as [| ? ? ? _ D V']; subst x0 xs0 it.
  split.
  - simpl. unfold FilterIterator.op_deref. rewrite D. reflexivity.
  - intros fuel Hfuel. simpl. unfold FilterIterator.op_incr. rewrite E, Ef.
    apply filter_skip; [exact V' | simpl in Hn; lia | simpl in Hn; lia].
Qed.

Lemma filter_repr_last (c : FilterIterator.t I A) ys :
  filter_repr e f n c ys ->
  ceq c (FilterIterator.Build e e f) = is_nil ys.
Proof.
  intros (xs & _ & _ & V & _ & Hx & ->).
  simpl. unfold FilterIterator.op_eq. simpl.
  rewrite (valid_range_at_end _ _ _ V).
  destruct xs as [|x xs]; simpl; [reflexivity|]. rewrite Hx. reflexivity.
Qed.

(** A cursor that satisfies the invariant and is not at the end rests on
    an accepted element. *)
Lemma filter_repr_current (c : FilterIterator.t I A) ys :
  filter_repr e f n c ys ->
  FilterIterator.IsEnd c = false ->
  exists x, cderef c = Ok x /\ f x = true.
Proof.
  intros (xs & E & _ & V & _ & Hx & _) NotEnd.
  unfold FilterIterator.IsEnd in NotEnd.
  rewrite E, (valid_range_at_end _ _ _ V) in NotEnd.
  destruct xs as [|x xs]; [discriminate|].
  inversion V as [| ? ? ? _ D _]; subst x0 xs0 it.
  exists x. split; [|exact Hx].
  simpl. unfold FilterIterator.op_deref. rewrite D. reflexivity.
Qed.

Lemma filter_make_end (fuel : nat) :
  ieq e e = true -> 0 < fuel ->
  FilterIterator.make fuel e e f = Ok (FilterIterator.Build e e f).
Proof.
  intros Refl Hfuel. destruct fuel as [|fuel]; [lia|].
  unfold FilterIterator.make. simpl. unfold FilterIterator.IsEnd. simpl.
  rewrite Refl. reflexivity.
Qed.

Lemma filter_traverse (b : I) xs fuel :
  valid_range e b xs -> ieq e e = true ->
  length xs <= n -> n < fuel ->
  traverse fuel (FilterIterator.make fuel b e f) (FilterIterator.make fuel e e f)
  = Ok (filter f xs).
Proof.
  intros V Refl Hn Hfuel. unfold traverse.
  rewrite (filter_make_end fuel Refl) by lia.
  unfold FilterIterator.make at 1.
  destruct (filter_skip xs b fuel V Hn) as (c & E & R); [lia|].
  rewrite E. simpl.
  apply (range_for_repr (filter_repr e f n) (S n)); try lia.
  - apply filter_repr_step.
  - apply filter_repr_last.
  - exact R.
  - pose proof (filter_length_le f xs). lia.
Qed.

End FilterFacts.

Lemma filter_Size_loop (A : Type) (l : list A) (f : A -> bool) :
  forall ys c inner fuel result,
    filter_repr (std_end l) f (length l) c ys ->
    S (length l) <= inner -> length ys < fuel ->
    FilteredBase.Size_loop inner fuel c (FilterIterator.Build (std_end l) (std_end l) f) result
    = Ok (result + length ys).
Proof.
  induction ys as [|y ys IH]; intros c inner fuel result R Hin Hfuel;
    (destruct fuel as [|fuel]; [simpl in Hfuel; lia|]);
    cbn [FilteredBase.Size_loop];
    rewrite (filter_repr_last _ _ _ _ _ R); cbn [is_nil].
  - f_equal. simpl. lia.
  - destruct (filter_repr_step _ _ _ _ _ _ R) as [D Hadv].
    destruct (Hadv inner Hin) as (c' & E & R').
    rewrite D, E. cbn [bind].
    rewrite (IH c' inner fuel (S result) R' Hin) by (simpl in Hfuel; lia).
    f_equal. simpl. lia.
Qed.

Lemma filter_is_nil (A : Type) (f : A -> bool) (l : list A) :
  is_nil (filter f l) = true <-> (forall x, In x l -> f x = false).
Proof.
  rewrite is_nil_true. induction l as [|a l IH]; simpl.
  - split; [intros _ x [] | reflexivity].
  - destruct (f a) eqn:Fa; split.
    + discriminate.
    + intros Hall. specialize (Hall a (or_introl eq_refl)). congruence.
    + intros E x [<- | Hx]; [exact Fa | apply IH; assumption].
    + intros Hall. apply IH. intros x Hx. apply Hall. right. exact Hx.
Qed.

(** C5.  Traversal of [Filter(s, pred)] yields the elements of [s] that
    satisfy [pred], in their order.  A cursor just built (at whatever
    position [k] of [s]) or just advanced (from whatever position [k]) is
    at the end or denotes an element that satisfies [pred].  [empty()] holds
    exactly when no element of [s] satisfies [pred], and [size()] is the
    number of elements that do. *)
Theorem filter_traversal (A : Type) (s : list A) (pred : A -> bool) (fuel : nat) :
  length s < fuel ->
  traverse fuel (FilteredBase.begin fuel s pred) (FilteredBase.end_ fuel s pred)
  = Ok (filter pred s) /\
  (forall k, k <= length s ->
     exists c,
       FilterIterator.make fuel (ListIterator s k) (std_end s) pred = Ok c /\
       (FilterIterator.IsEnd c = false -> exists x, FilterIterator.op_deref c = Ok x /\ pred x = true)) /\
  (forall k, k < length s ->
     exists c,
       FilterIterator.op_incr fuel
         (FilterIterator.Build (ListIterator s k) (std_end s) pred)
       = Ok c /\
       (FilterIterator.IsEnd c = false -> exists x, FilterIterator.op_deref c = Ok x /\ pred x = true)) /\
  (exists b, FilteredBase.empty fuel s pred = Ok b /\
             (b = true <-> forall x, In x s -> pred x = false)) /\
  FilteredBase.size fuel s pred = Ok (length (filter pred s)).
Proof.
  intros Hfuel.
  assert (Refl : ieq (std_end s) (std_end s) = true) by (simpl; apply Nat.eqb_refl).
  assert (Hbegin : exists c,
             FilteredBase.begin fuel s pred = Ok c /\
             filter_repr (std_end s) pred (length s) c (filter pred s)).
  { unfold FilteredBase.begin, FilterIterator.make.
    apply filter_skip; [apply list_range | lia | exact Hfuel]. }
  assert (Hend : FilteredBase.end_ fuel s pred
                 = Ok (FilterIterator.Build (std_end s) (std_end s) pred)).
  { unfold FilteredBase.end_. apply filter_make_end; [exact Refl | lia]. }
  split; [|split; [|split; [|split]]].
  - unfold FilteredBase.begin, FilteredBase.end_.
    apply (filter_traverse (std_end s) pred (length s));
      [apply list_range | exact Refl | lia | exact Hfuel].
  - intros k Hk. unfold FilterIterator.make.
    destruct (filter_skip _ pred (length s) _ _ fuel (list_range_from s k Hk))
      as (c & E & R).
    + rewrite length_skipn. lia.
    + rewrite length_skipn. lia.
    + exists c. split; [exact E|]. apply (filter_repr_current _ _ _ _ _ R).
  - intros k Hk. unfold FilterIterator.op_incr. simpl.
    destruct (filter_skip _ pred (length s) _ _ fuel (list_range_from s (S k) Hk))
      as (c & E & R).
    + rewrite length_skipn. lia.
    + rewrite length_skipn. lia.
    + exists c. split; [exact E|]. apply (filter_repr_current _ _ _ _ _ R).
  - destruct Hbegin as (c & E & R).
    exists (is_nil (filter pred s)). split; [|apply filter_is_nil].
    unfold FilteredBase.empty, FilteredBase.IsEmpty. rewrite E, Hend. cbn [bind].
    rewrite (filter_repr_last _ _ _ _ _ R).
    destruct (filter pred s) as [|y ys] eqn:Ef; cbn [is_nil negb]; [reflexivity|].
    destruct (filter_repr_step _ _ _ _ _ _ R) as [D _]. rewrite D. reflexivity.
  - destruct Hbegin as (c & E & R).
    unfold FilteredBase.size, FilteredBase.Size. rewrite E, Hend. cbn [bind].
    rewrite (filter_Size_loop A s pred (filter pred s) c fuel fuel 0 R); try lia.
    + reflexivity.
    + pose proof (filter_length_le pred s). lia.
Qed.

Lemma filter_traversal_witness :
  length [0; 0; 0; 1; 2; 2; 2; 3; 4; 4; 4] < 12 /\
  traverse 12 (FilteredBase.begin 12 [0; 0; 0; 1; 2; 2; 2; 3; 4; 4; 4] Nat.odd)
              (FilteredBase.end_ 12 [0; 0; 0; 1; 2; 2; 2; 3; 4; 4; 4] Nat.odd)
  = Ok [1; 3] /\
  FilteredBase.size 12 [0; 0; 0; 1; 2; 2; 2; 3; 4; 4; 4] Nat.odd = Ok 2.
Proof.
  assert (Hfuel : length [0; 0; 0; 1; 2; 2; 2; 3; 4; 4; 4] < 12) by (simpl; lia).
  pose proof (filter_traversal nat [0; 0; 0; 1; 2; 2; 2; 3; 4; 4; 4] Nat.odd 12 Hfuel)
    as (T & _ & _ & _ & S).
  split; [exact Hfuel | split; [exact T | exact S]].
Defined.

(** ** Chain *)

Section ChainFacts.
Context {OI II CI A : Type} `{Iterator OI CI} `{Iterator II A}.
Variables (oe : OI) (gb ge : CI -> II) (elems : CI -> list A) (n : nat).

Hypothesis inner_range : forall C, valid_range (ge C) (gb C) (elems C).

(** The skip loop, started on the inner collection [C] with [cur] left of
    it, ends with the invariant established. *)
Lemma chain_skip :
  forall Cs ob C ib cur fuel,
    valid_range oe ob (C :: Cs) ->
    valid_range (ge C) ib cur ->
    length (C :: Cs) <= n ->
    length (C :: Cs) < fuel ->
    exists c,
      ChainedIterator.SkipEmptyInnerCollections fuel
        (ChainedIterator.Build ob oe (Some ib) (Some (ge C)) gb ge) = Ok c /\
      chain_repr oe gb ge elems n c (cur ++ concat (map elems Cs)).
Proof.
  induction Cs as [|C' Cs IH]; intros ob C ib cur fuel VO VI Hn Hfuel;
    (destruct fuel as [|fuel]; [simpl in Hfuel; lia|]);
    cbn [ChainedIterator.SkipEmptyInnerCollections];
    unfold ChainedIterator.IsAtEnd, ChainedIterator.IsAtEndOfInnerCollection;
    cbn [ChainedIterator.outer_begin_ ChainedIterator.outer_end_
         ChainedIterator.inner_begin_ ChainedIterator.inner_end_ of_option bind];
    rewrite (valid_range_at_end _ _ _ VO), (valid_range_at_end _ _ _ VI);
    cbn [is_nil negb].
  - (* the last inner collection *)
    destruct cur as [|x cur]; cbn [is_nil].
    + destruct (valid_range_cons_inv _ _ _ _ VO) as [_ VO'].
      unfold ChainedIterator.AdvanceOuterCollection, ChainedIterator.InitializeInnerCollection,
        ChainedIterator.IsAtEnd.
      cbn [ChainedIterator.outer_begin_ ChainedIterator.outer_end_
           ChainedIterator.inner_begin_ ChainedIterator.inner_end_
           ChainedIterator.get_inner_begin_ ChainedIterator.get_inner_end_].
      rewrite (valid_range_at_end _ _ _ VO'). cbn [is_nil negb bind].
      destruct fuel as [|fuel]; [simpl in Hfuel; lia|].
      cbn [ChainedIterator.SkipEmptyInnerCollections].
      unfold ChainedIterator.IsAtEnd.
      cbn [ChainedIterator.outer_begin_ ChainedIterator.outer_end_].
      rewrite (valid_range_at_end _ _ _ VO'). cbn [is_nil negb].
      eexists. split; [reflexivity|].
      split; [reflexivity|]. split; [reflexivity|]. split; [reflexivity|].
      exists []. split; [exact VO'|]. split; [simpl; lia | reflexivity].
    + eexists. split; [reflexivity|].
      split; [reflexivity|]. split; [reflexivity|]. split; [reflexivity|].
      exists [C]. split; [exact VO|]. split; [exact Hn|].
      exists ib, (x :: cur). repeat split; try assumption; try reflexivity.
      discriminate.
  - destruct cur as [|x cur]; cbn [is_nil].
    + destruct (valid_range_cons_inv _ _ _ _ VO) as [_ VO'].
      unfold ChainedIterator.AdvanceOuterCollection, ChainedIterator.InitializeInnerCollection,
        ChainedIterator.IsAtEnd.
      cbn [ChainedIterator.outer_begin_ ChainedIterator.outer_end_
           ChainedIterator.inner_begin_ ChainedIterator.inner_end_
           ChainedIterator.get_inner_begin_ ChainedIterator.get_inner_end_].
      rewrite (valid_range_at_end _ _ _ VO'). cbn [is_nil negb].
      destruct (valid_range_cons_inv _ _ _ _ VO') as [D _].
      rewrite D. cbn [of_option bind].
      cbn [app map concat].
      apply IH; [exact VO' | apply inner_range | simpl in *; lia | simpl in *; lia].
    + eexists. split; [reflexivity|].
      split; [reflexivity|]. split; [reflexivity|]. split; [reflexivity|].
      exists (C :: C' :: Cs). split; [exact VO|]. split; [exact Hn|].
      exists ib, (x :: cur). repeat split; try assumption; try reflexivity.
      discriminate.
Qed.

Lemma chain_make (b : OI) Cs fuel :
  valid_range oe b Cs -> length Cs <= n -> length Cs < fuel ->
  exists c,
    ChainedIterator.make fuel b oe gb ge = Ok c /\
    chain_repr oe gb ge elems n c (concat (map elems Cs)).
Proof.
  intros VO Hn Hfuel.
  unfold ChainedIterator.make, ChainedIterator.InitializeInnerCollection,
    ChainedIterator.IsAtEnd.
  cbn [ChainedIterator.outer_begin_ ChainedIterator.outer_end_
       ChainedIterator.get_inner_begin_ ChainedIterator.get_inner_end_].
  rewrite (valid_range_at_end _ _ _ VO).
  destruct Cs as [|C Cs]; cbn [is_nil negb bind].
  - destruct fuel as [|fuel]; [simpl in Hfuel; lia|].
    cbn [ChainedIterator.SkipEmptyInnerCollections].
    unfold ChainedIterator.IsAtEnd.
    cbn [ChainedIterator.outer_begin_ ChainedIterator.outer_end_].
    rewrite (valid_range_at_end _ _ _ VO). cbn [is_nil negb].
    eexists. split; [reflexivity|].
    split; [reflexivity|]. split; [reflexivity|]. split; [reflexivity|].
    exists []. split; [exact VO|]. split; [simpl; lia | reflexivity].
  - destruct (valid_range_cons_inv _ _ _ _ VO) as [D _].
    rewrite D. cbn [of_option bind map concat].
    apply chain_skip; [exact VO | apply inner_range | exact Hn | exact Hfuel].
Qed.

Lemma chain_repr_step (c : ChainedIterator.t OI II CI) x xs :
  chain_repr oe gb ge elems n c (x :: xs) ->
  cderef c = Ok x /\
  forall fuel, S n <= fuel -> exists c', cincr fuel c = Ok c' /\ chain_repr oe gb ge elems n c' xs.
Proof.
  intros (Eo & Eb & Ee & Cs & VO & Hn & Hcur).
  destruct Cs as [|C Cs]; [discriminate|].
  destruct Hcur as (ib & cur & Eib & Eie & VI & Hne & Exs).
  destruct cur as [|y cur]; [congruence|].
  cbn [app] in Exs. injection Exs as -> ->.
  destruct (valid_range_cons_inv _ _ _ _ VI) as [D VI'].
  split.
  - simpl. unfold ChainedIterator.op_deref. rewrite Eib. simpl. rewrite D. reflexivity.
  - intros fuel Hfuel. simpl. unfold ChainedIterator.op_incr.
    rewrite Eib, Eo, Eie, Eb, Ee. cbn [of_option bind].
    apply chain_skip; [exact VO | exact VI' | exact Hn | simpl in *; lia].
Qed.

Lemma chain_IsAtEnd (c : ChainedIterator.t OI II CI) xs :
  chain_repr oe gb ge elems n c xs ->
  ChainedIterator.IsAtEnd c = is_nil xs.
Proof.
  intros (Eo & _ & _ & Cs & VO & _ & Hcur).
  unfold ChainedIterator.IsAtEnd. rewrite Eo, (valid_range_at_end _ _ _ VO).
  destruct Cs as [|C Cs].
  - subst xs. reflexivity.
  - destruct Hcur as (ib & cur & _ & _ & _ & Hne & ->).
    destruct cur; [congruence | reflexivity].
Qed.

(** Once the skip loop has run, the cursor is at the outer end or inside a
    non-exhausted inner collection. *)
Lemma chain_repr_settled (c : ChainedIterator.t OI II CI) xs :
  chain_repr oe gb ge elems n c xs ->
  ChainedIterator.IsAtEnd c = true \/
  (ChainedIterator.IsAtEnd c = false /\
   ChainedIterator.IsAtEndOfInnerCollection c = Ok false).
Proof.
  intros R. pose proof (chain_IsAtEnd _ _ R) as E.
  destruct R as (_ & _ & _ & Cs & VO & _ & Hcur).
  destruct Cs as [|C Cs].
  - subst xs. left. exact E.
  - destruct Hcur as (ib & cur & Eib & Eie & VI & Hne & ->).
    right. destruct cur as [|y cur]; [congruence|]. split; [exact E|].
    unfold ChainedIterator.IsAtEndOfInnerCollection. rewrite Eib, Eie.
    cbn [of_option bind]. rewrite (valid_range_at_end _ _ _ VI). reflexivity.
Qed.

Lemma chain_repr_last (last c : ChainedIterator.t OI II CI) xs :
  ChainedIterator.IsAtEnd last = true ->
  chain_repr oe gb ge elems n c xs -> ceq c last = is_nil xs.
Proof.
  intros L R. simpl. unfold ChainedIterator.op_eq.
  rewrite L, (chain_IsAtEnd _ _ R). destruct (is_nil xs); reflexivity.
Qed.

Lemma chain_make_end (fuel : nat) :
  ieq oe oe = true -> 0 < fuel ->
  ChainedIterator.make fuel oe oe gb ge
  = Ok (ChainedIterator.Build oe oe None None gb ge).
Proof.
  intros Refl Hfuel. destruct fuel as [|fuel]; [lia|].
  unfold ChainedIterator.make, ChainedIterator.InitializeInnerCollection,
    ChainedIterator.IsAtEnd.
  cbn [ChainedIterator.outer_begin_ ChainedIterator.outer_end_].
  rewrite Refl. cbn [negb bind ChainedIterator.SkipEmptyInnerCollections].
  unfold ChainedIterator.IsAtEnd.
  cbn [ChainedIterator.outer_begin_ ChainedIterator.outer_end_].
  rewrite Refl. reflexivity.
Qed.

Lemma chain_traverse (b : OI) Cs fuel :
  valid_range oe b Cs -> ieq oe oe = true ->
  length Cs <= n -> n < fuel ->
  length (concat (map elems Cs)) < fuel ->
  traverse fuel (ChainedIterator.make fuel b oe gb ge) (ChainedIterator.make fuel oe oe gb ge)
  = Ok (concat (map elems Cs)).
Proof.
  intros VO Refl Hn Hfuel Hlen. unfold traverse.
  rewrite (chain_make_end fuel Refl) by lia.
  destruct (chain_make b Cs fuel VO Hn) as (c & E & R); [lia|].
  rewrite E. cbn [bind].
  apply (range_for_repr (chain_repr oe gb ge elems n) (S n)); try lia.
  - apply chain_repr_step.
  - intros c' xs. apply chain_repr_last.
    unfold ChainedIterator.IsAtEnd. simpl. exact Refl.
  - exact R.
Qed.

End ChainFacts.

Section ChainedBaseFacts.
Context {CO CI A : Type} {outer : Collection CO CI} {inner : Collection CI A}.

Lemma chain_IsEmpty_loop (last : @iterator CO CI outer) :
  forall Cs it fuel,
    valid_range last it Cs -> length Cs < fuel ->
    ChainedBase.IsEmpty_loop fuel it last = Ok (forallb std_empty Cs).
Proof.
  induction Cs as [|C Cs IH]; intros it fuel V Hfuel;
    (destruct fuel as [|fuel]; [simpl in Hfuel; lia|]);
    cbn [ChainedBase.IsEmpty_loop]; rewrite (valid_range_at_end _ _ _ V); cbn [is_nil].
  - reflexivity.
  - destruct (valid_range_cons_inv _ _ _ _ V) as [D V'].
    rewrite D. cbn [of_option bind forallb].
    destruct (std_empty C); cbn [negb andb]; [|reflexivity].
    apply IH; [exact V' | simpl in Hfuel; lia].
Qed.

Lemma chain_Size_loop (last : @iterator CO CI outer) :
  forall Cs it fuel result,
    valid_range last it Cs -> length Cs < fuel ->
    ChainedBase.Size_loop fuel it last result
    = Ok (result + list_sum (map std_size Cs)).
Proof.
  induction Cs as [|C Cs IH]; intros it fuel result V Hfuel;
    (destruct fuel as [|fuel]; [simpl in Hfuel; lia|]);
    cbn [ChainedBase.Size_loop]; rewrite (valid_range_at_end _ _ _ V); cbn [is_nil].
  - f_equal. simpl. lia.
  - destruct (valid_range_cons_inv _ _ _ _ V) as [D V'].
    rewrite D. cbn [of_option bind].
    rewrite (IH (incr it) fuel) by (try exact V'; simpl in Hfuel; lia).
    f_equal. simpl. lia.
Qed.

End ChainedBaseFacts.

Lemma forallb_empty_lists (A : Type) (data : list (list A)) :
  forallb std_empty data = true <-> (forall l, In l data -> l = []).
Proof.
  rewrite forallb_forall. split; intros Hall l Hl; specialize (Hall l Hl).
  - destruct l; [reflexivity | discriminate].
  - subst l. reflexivity.
Qed.

(** C4.  Forward traversal of [Chain(data)] yields the elements of the
    inner sequences one after the other (their concatenation: empty inner
    sequences contribute nothing, an empty outer sequence gives an empty
    traversal); [empty()] holds exactly when every inner sequence is empty
    and [size()] is the sum of the inner sizes. *)
Theorem chain_traversal (A : Type) (data : list (list A)) (fuel : nat) :
  length data < fuel ->
  length (concat data) < fuel ->
  traverse fuel (ChainedBase.begin fuel data) (ChainedBase.end_ fuel data)
  = Ok (concat data) /\
  (forall k, k <= length (concat data) ->
     exists c,
       (b <- ChainedBase.begin fuel data ;; advance fuel k b) = Ok c /\
       (ChainedIterator.IsAtEnd c = true \/
        (ChainedIterator.IsAtEnd c = false /\
         ChainedIterator.IsAtEndOfInnerCollection c = Ok false))) /\
  (exists b, ChainedBase.empty fuel data = Ok b /\
             (b = true <-> forall l, In l data -> l = [])) /\
  ChainedBase.size fuel data = Ok (list_sum (map (@length A) data)).
Proof.
  intros Hdata Hconcat. split; [|split; [|split]].
  - unfold ChainedBase.begin, ChainedBase.end_.
    pose proof (chain_traverse (std_end data) ChainedBase.GetBegin ChainedBase.GetEnd
                  (fun l : list A => l) (length data) (@list_range A)
                  (std_begin data) data fuel (list_range data)) as T.
    rewrite map_id in T. apply T.
    + simpl. apply Nat.eqb_refl.
    + lia.
    + exact Hdata.
    + exact Hconcat.
  - intros k Hk. unfold ChainedBase.begin.
    destruct (chain_make (std_end data) ChainedBase.GetBegin ChainedBase.GetEnd
                (fun l : list A => l) (length data) (@list_range A)
                (std_begin data) data fuel (list_range data)) as (b & E & R); try lia.
    rewrite E. cbn [bind]. rewrite map_id in R.
    destruct (advance_repr _ (S (length data)) (chain_repr_step _ _ _ _ _ (@list_range A))
                k (concat data) b fuel R) as (c & Ec & Rc); try lia.
    exists c. split; [exact Ec|]. apply (chain_repr_settled _ _ _ _ _ _ _ Rc).
  - exists (forallb std_empty data). split; [|apply forallb_empty_lists].
    unfold ChainedBase.empty, ChainedBase.IsEmpty.
    apply chain_IsEmpty_loop; [apply list_range | exact Hdata].
  - unfold ChainedBase.size, ChainedBase.Size.
    rewrite (chain_Size_loop _ data) by (try apply list_range; exact Hdata).
    reflexivity.
Qed.

Lemma chain_traversal_witness :
  length [[1]; []; []; [2; 3]; []] < 6 /\
  length (concat [[1]; []; []; [2; 3]; []]) < 6 /\
  traverse 6 (ChainedBase.begin 6 [[1]; []; []; [2; 3]; []])
             (ChainedBase.end_ 6 [[1]; []; []; [2; 3]; []])
  = Ok [1; 2; 3] /\
  ChainedBase.size 6 [[1]; []; []; [2; 3]; []] = Ok 3.
Proof.
  assert (Hdata : length [[1]; []; []; [2; 3]; []] < 6) by (simpl; lia).
  assert (Hconcat : length (concat [[1]; []; []; [2; 3]; []]) < 6) by (simpl; lia).
  pose proof (chain_traversal nat [[1]; []; []; [2; 3]; []] 6 Hdata Hconcat)
    as (T & _ & _ & S).
  split; [exact Hdata | split; [exact Hconcat | split; [exact T | exact S]]].
Defined.

(** The cases of the tests [ChainTest.skips_over_empty_first_collections]
    and [ChainTest.survives_empty_outer_collection]. *)
Example chain_test_cases :
  traverse 4 (ChainedBase.begin 4 [[]; []; [1; 2; 3]]) (ChainedBase.end_ 4 [[]; []; [1; 2; 3]])
  = Ok [1; 2; 3] /\
  traverse 1 (ChainedBase.begin 1 (@nil (list nat))) (ChainedBase.end_ 1 (@nil (list nat)))
  = Ok [].
Proof. split; reflexivity. Qed.

(** *** Termination of the skip loop *)

Section ChainTermination.
Context {OI II CI A : Type} `{Iterator OI CI} `{Iterator II A}.

(** Whatever the inner iterators are, the loop stops after at most as many
    rounds as the outer cursor has collections left: with [Cs] left, fuel
    for [length Cs + 1] evaluations of its condition is enough, and the outer
    cursor only moves forward, within [Cs]. *)
Lemma chain_skip_terminates :
  forall Cs (c : ChainedIterator.t OI II CI) fuel,
    valid_range (ChainedIterator.outer_end_ c) (ChainedIterator.outer_begin_ c) Cs ->
    (Cs <> [] ->
     ChainedIterator.inner_begin_ c <> None /\ ChainedIterator.inner_end_ c <> None) ->
    length Cs < fuel ->
    exists c' Cs',
      ChainedIterator.SkipEmptyInnerCollections fuel c = Ok c' /\
      ChainedIterator.outer_end_ c' = ChainedIterator.outer_end_ c /\
      valid_range (ChainedIterator.outer_end_ c') (ChainedIterator.outer_begin_ c') Cs' /\
      exists skipped, Cs = skipped ++ Cs'.
Proof.
  induction Cs as [|C Cs IH]; intros c fuel VO Hinner Hfuel;
    (destruct fuel as [|fuel]; [simpl in Hfuel; lia|]);
    cbn [ChainedIterator.SkipEmptyInnerCollections];
    unfold ChainedIterator.IsAtEnd; rewrite (valid_range_at_end _ _ _ VO);
    cbn [is_nil negb].
  - exists c, []. split; [reflexivity|]. split; [reflexivity|]. split; [exact VO|].
    exists []. reflexivity.
  - destruct Hinner as [Hb He]; [discriminate|].
    unfold ChainedIterator.IsAtEndOfInnerCollection.
    destruct (ChainedIterator.inner_begin_ c) as [ib|] eqn:Eib; [|congruence].
    destruct (ChainedIterator.inner_end_ c) as [ie|] eqn:Eie; [|congruence].
    cbn [of_option bind].
    destruct (ieq ib ie).
    + destruct (valid_range_cons_inv _ _ _ _ VO) as [_ VO'].
      unfold ChainedIterator.AdvanceOuterCollection,
        ChainedIterator.InitializeInnerCollection, ChainedIterator.IsAtEnd.
      cbn [ChainedIterator.outer_begin_ ChainedIterator.outer_end_
           ChainedIterator.inner_begin_ ChainedIterator.inner_end_
           ChainedIterator.get_inner_begin_ ChainedIterator.get_inner_end_].
      rewrite (valid_range_at_end _ _ _ VO').
      destruct Cs as [|C' Cs]; cbn [is_nil negb bind].
      * match goal with
        | |- context [ChainedIterator.SkipEmptyInnerCollections fuel ?c0] =>
            destruct (IH c0 fuel) as (c' & Cs' & E & Ee & V' & skipped & Es);
              [exact VO' | congruence | simpl in *; lia |]
        end.
        exists c', Cs'. split; [exact E|]. split; [exact Ee|]. split; [exact V'|].
        exists (C :: skipped). simpl. rewrite Es. reflexivity.
      * destruct (valid_range_cons_inv _ _ _ _ VO') as [D _].
        rewrite D. cbn [of_option bind].
        match goal with
        | |- context [ChainedIterator.SkipEmptyInnerCollections fuel ?c0] =>
            destruct (IH c0 fuel) as (c' & Cs' & E & Ee & V' & skipped & Es);
              [exact VO' | intros _; simpl; split; discriminate | simpl in *; lia |]
        end.
        exists c', Cs'. split; [exact E|]. split; [exact Ee|]. split; [exact V'|].
        exists (C :: skipped). simpl. rewrite Es. reflexivity.
    + exists c, (C :: Cs). split; [reflexivity|]. split; [reflexivity|].
      split; [exact VO|]. exists []. reflexivity.
Qed.

End ChainTermination.

(** C8.  Over a finite outer sequence [data] of finite inner sequences the
    skip loop terminates: started with the outer cursor at position [k]
    and any two inner cursors, [length data - k + 1] evaluations of its
    condition are enough, and it leaves the outer cursor between [k] and the
    end.  Hence building the cursors of a Chain view completes, and so does
    every advance of a traversal. *)
Theorem chain_skip_loop_terminates (A : Type) (data : list (list A)) (fuel : nat) :
  length data < fuel ->
  (forall k (ib ie : list_iterator A) extra,
     k <= length data ->
     exists c,
       ChainedIterator.SkipEmptyInnerCollections (length data - k + 1 + extra)
         (ChainedIterator.Build (ListIterator data k) (std_end data) (Some ib) (Some ie)
            (@ChainedBase.GetBegin (list A) A _) (@ChainedBase.GetEnd (list A) A _))
       = Ok c /\
       k <= pos (ChainedIterator.outer_begin_ c) <= length data) /\
  (exists b e,
     ChainedBase.begin fuel data = Ok b /\ ChainedBase.end_ fuel data = Ok e) /\
  (forall k, k <= length (concat data) ->
     exists c, (b <- ChainedBase.begin fuel data ;; advance fuel k b) = Ok c).
Proof.
  intros Hfuel. split; [|split].
  - intros k ib ie extra Hk.
    match goal with
    | |- exists c, ChainedIterator.SkipEmptyInnerCollections ?f ?c0 = Ok c /\ _ =>
        destruct (chain_skip_terminates (skipn k data) c0 f)
          as (c & Cs' & E & Ee & V' & skipped & Es)
    end.
    + apply list_range_from. exact Hk.
    + intros _. simpl. split; discriminate.
    + rewrite length_skipn. lia.
    + exists c. split; [exact E|].
      simpl in Ee. rewrite Ee in V'.
      destruct (list_range_pos data _ _ V') as [Hle Hpos].
      assert (Hlen : length (skipn k data) = length skipped + length Cs')
        by (rewrite Es, length_app; reflexivity).
      rewrite length_skipn in Hlen. lia.
  - unfold ChainedBase.begin, ChainedBase.end_.
    destruct (chain_make (std_end data) ChainedBase.GetBegin ChainedBase.GetEnd
                (fun l : list A => l) (length data) (@list_range A)
                (std_begin data) data fuel (list_range data)) as (b & E & _); try lia.
    exists b. eexists. split; [exact E|].
    apply chain_make_end; [simpl; apply Nat.eqb_refl | lia].
  - intros k Hk. unfold ChainedBase.begin.
    destruct (chain_make (std_end data) ChainedBase.GetBegin ChainedBase.GetEnd
                (fun l : list A => l) (length data) (@list_range A)
                (std_begin data) data fuel (list_range data)) as (b & E & R); try lia.
    rewrite E. cbn [bind]. rewrite map_id in R.
    destruct (advance_repr _ (S (length data)) (chain_repr_step _ _ _ _ _ (@list_range A))
                k (concat data) b fuel R) as (c & Ec & _); try lia.
    exists c. exact Ec.
Qed.

Lemma chain_skip_loop_terminates_witness :
  length [[1]; []; []; [2; 3]; []] < 6 /\
  exists c,
    (b <- ChainedBase.begin 6 [[1]; []; []; [2; 3]; []] ;; advance 6 1 b) = Ok c.
Proof.
  assert (Hfuel : length [[1]; []; []; [2; 3]; []] < 6) by (simpl; lia).
  split; [exact Hfuel|].
  apply (proj2 (proj2 (chain_skip_loop_terminates nat [[1]; []; []; [2; 3]; []] 6 Hfuel))).
  simpl. lia.
Defined.

(** ** Reverse *)

Lemma reverse_traversal (A : Type) (s : list A) (fuel : nat) :
  length s < fuel ->
  range_for fuel (std_begin (Reverse s)) (std_end (Reverse s)) = Ok (rev s).
Proof.
  intros Hfuel. apply range_for_valid_range.
  - apply list_rrange.
  - rewrite length_rev. exact Hfuel.
Qed.

(** C9.  [Reverse(Reverse(s))] hands out the very cursors of [s]: for every
    bidirectional collection its forward traversal is the forward traversal
    of [s]; over a list [s] it yields [s], while [Reverse(s)] yields [s]
    back to front. *)
Theorem reverse_reverse_traversal :
  (forall (C A : Type) (bidi : Bidirectional C A) (s : C) (fuel : nat),
     range_for fuel (std_begin (Reverse (Reverse s))) (std_end (Reverse (Reverse s)))
     = range_for fuel (std_begin s) (std_end s)) /\
  (forall (A : Type) (s : list A) (fuel : nat),
     length s < fuel ->
     range_for fuel (std_begin (Reverse (Reverse s))) (std_end (Reverse (Reverse s))) = Ok s /\
     range_for fuel (std_begin s) (std_end s) = Ok s /\
     range_for fuel (std_begin (Reverse s)) (std_end (Reverse s)) = Ok (rev s)).
Proof.
  split.
  - intros C A bidi s fuel. reflexivity.
  - intros A s fuel Hfuel.
    assert (T : range_for fuel (std_begin s) (std_end s) = Ok s)
      by (apply range_for_valid_range; [apply list_range | exact Hfuel]).
    split; [exact T | split; [exact T | apply reverse_traversal; exact Hfuel]].
Qed.

Lemma reverse_reverse_traversal_witness :
  range_for 4 (std_begin (Reverse (Reverse [1; 3; 5]))) (std_end (Reverse (Reverse [1; 3; 5])))
  = Ok [1; 3; 5] /\
  range_for 4 (std_begin (Reverse [1; 3; 5])) (std_end (Reverse [1; 3; 5])) = Ok [5; 3; 1].
Proof.
  assert (Hfuel : length [1; 3; 5] < 4) by (simpl; lia).
  pose proof (proj2 reverse_reverse_traversal nat [1; 3; 5] 4 Hfuel) as (RR & _ & R).
  split; [exact RR | exact R].
Defined.

(** ** Map *)

(** C10.  On a Map cursor that denotes the element [x], one dereference
    calls the mapping function once, on [x], and returns what it returned;
    a second dereference calls it again, in the world the first call left
    behind (nothing is stored in the cursor); advancing calls nothing. *)
Theorem map_deref_calls_once (I A B W : Type) (ops : Iterator I A)
    (first last : I) (f : A -> W -> B * W) (x : A) (calls : nat) (w : W) :
  deref first = Some x ->
  let it := MappedIterator.Build first last (counted f) in
  MappedIterator.op_deref it (calls, w)
  = Ok (fst (f x w), (S calls, snd (f x w))) /\
  eff_bind (MappedIterator.op_deref it)
    (fun v1 => eff_bind (MappedIterator.op_deref it) (fun v2 => eff_ret (v1, v2)))
    (calls, w)
  = Ok ((fst (f x w), fst (f x (snd (f x w)))),
        (S (S calls), snd (f x (snd (f x w))))) /\
  MappedIterator.op_incr it (calls, w)
  = Ok (MappedIterator.Build (incr first) last (counted f), (calls, w)) /\
  eff_bind (MappedIterator.op_deref it) (fun v => eff_ret (v, it)) (calls, w)
  = Ok ((fst (f x w), it), (S calls, snd (f x w))).
Proof.
  intros D it. unfold it, MappedIterator.op_deref, MappedIterator.op_incr,
    eff_bind, eff_ret, counted.
  cbn [MappedIterator.begin_ MappedIterator.end_ MappedIterator.mapping_function_].
  rewrite D. cbn. repeat split.
Qed.

Lemma map_deref_calls_once_witness :
  MappedIterator.op_deref
    (MappedIterator.Build (std_begin [1; 3; 5]) (std_end [1; 3; 5])
       (counted (fun (x : nat) (w : nat) => (x + w, S w))))
    (0, 10)
  = Ok (11, (1, 11)).
Proof.
  apply (map_deref_calls_once _ nat nat nat _ _ _
           (fun (x : nat) (w : nat) => (x + w, S w)) 1 0 10).
  reflexivity.
Defined.

(** Two dereferences of one cursor whose mapping function keeps a counter
    of its own: the values differ, each is computed when asked for. *)
Example map_deref_twice_fresh :
  eff_bind
    (MappedIterator.op_deref (MappedBase.begin [1; 3; 5] (fun (x : nat) (w : nat) => (x + w, S w))))
    (fun v1 =>
       eff_bind
         (MappedIterator.op_deref
            (MappedBase.begin [1; 3; 5] (fun (x : nat) (w : nat) => (x + w, S w))))
         (fun v2 => eff_ret (v1, v2)))
    10
  = Ok ((11, 12), 12).
Proof. reflexivity. Qed.

(** ** Comparing cursors *)






Lemma skipn_cons_nth_error {A : Type} (l : list A) :
  forall k x, nth_error l k = Some x -> skipn k l = x :: skipn (S k) l.
Proof.
  induction l as [|a l IH]; intros [|k] x Hx; simpl in *; try discriminate.
  - congruence.
  - apply IH in Hx. destruct l; simpl in *; auto.
Qed.

Lemma is_nil_length {A : Type} (xs : list A) : is_nil xs = (length xs =? 0).
Proof. destruct xs; reflexivity. Qed.

Lemma eqb_remaining_zero (n i : nat) : i <= n -> (n - i =? 0) = (i =? n).
Proof.
  intros Hi. destruct (Nat.eqb_spec i n) as [-> | Hne].
  - rewrite Nat.sub_diag. reflexivity.
  - apply Nat.eqb_neq. lia.
Qed.



(** * The rest of the header *)

(** ** Map: traversal *)

Lemma map_range_for_valid {I A B W : Type} `{Iterator I A} (last : I) (f : A -> W -> B * W) :
  forall xs it fuel w,
    valid_range last it xs -> length xs < fuel ->
    map_range_for fuel (MappedIterator.Build it last f) (MappedIterator.Build last last f) w
    = Ok (map_thread f xs w).
Proof.
  induction xs as [|x xs IH]; intros it fuel w V Hfuel;
    (destruct fuel as [|fuel]; [simpl in Hfuel; lia|]);
    cbn [map_range_for]; unfold MappedIterator.op_eq;
    cbn [MappedIterator.begin_]; rewrite (valid_range_at_end _ _ _ V); cbn [is_nil].
  - reflexivity.
  - destruct (valid_range_cons_inv _ _ _ _ V) as [D V'].
    unfold eff_bind, MappedIterator.op_deref, MappedIterator.op_incr, eff_ret.
    cbn [MappedIterator.begin_ MappedIterator.end_ MappedIterator.mapping_function_].
    rewrite D. cbn [of_option bind fst snd].
    rewrite (IH (incr it) fuel (snd (f x w)) V') by (simpl in Hfuel; lia).
    reflexivity.
Qed.

Lemma map_thread_length {A B W : Type} (f : A -> W -> B * W) (xs : list A) :
  forall w, length (fst (map_thread f xs w)) = length xs.
Proof.
  induction xs as [|x xs IH]; intros w; simpl; [reflexivity|]. rewrite IH. reflexivity.
Qed.

Lemma map_thread_stateless {A B W : Type} (g : A -> B) (xs : list A) (w : W) :
  map_thread (stateless g) xs w = (map g xs, w).
Proof.
  induction xs as [|x xs IH]; simpl; [reflexivity|]. rewrite IH. reflexivity.
Qed.

Lemma map_thread_counted {A B W : Type} (f : A -> W -> B * W) (xs : list A) :
  forall calls w,
    map_thread (counted f) xs (calls, w)
    = (fst (map_thread f xs w), (calls + length xs, snd (map_thread f xs w))).
Proof.
  induction xs as [|x xs IH]; intros calls w; simpl.
  - rewrite Nat.add_0_r. reflexivity.
  - change (counted f x (calls, w)) with (fst (f x w), (S calls, snd (f x w))).
    cbn [fst snd]. rewrite IH. cbn [fst snd].
    replace (S calls + length xs) with (calls + S (length xs)) by lia.
    reflexivity.
Qed.

Lemma map_thread_app {A B W : Type} (f : A -> W -> B * W) (xs ys : list A) :
  forall w,
    map_thread f (xs ++ ys) w
    = (fst (map_thread f xs w) ++ fst (map_thread f ys (snd (map_thread f xs w))),
       snd (map_thread f ys (snd (map_thread f xs w)))).
Proof.
  induction xs as [|x xs IH]; intros w; cbn [app map_thread fst snd].
  - destruct (map_thread f ys w); reflexivity.
  - rewrite IH. reflexivity.
Qed.

(** X1.  A loop over [Map(s, f)] hands each element of [s], from the first
    to the last, to the mapping function and collects what it returns: the
    state the function keeps goes from one call to the next, there are as
    many results as elements, and for a function without state the results
    are [map g s]. *)
Theorem map_forward_traversal (A B W : Type) (s : list A) (f : A -> W -> B * W)
    (g : A -> B) (w : W) (fuel : nat) :
  length s < fuel ->
  map_range_for fuel (MappedBase.begin s f) (MappedBase.end_ s f) w
  = Ok (map_thread f s w) /\
  length (fst (map_thread f s w)) = length s /\
  map_range_for fuel (MappedBase.begin s (stateless g)) (MappedBase.end_ s (stateless g)) w
  = Ok (map g s, w).
Proof.
  intros Hfuel. split; [|split].
  - unfold MappedBase.begin, MappedBase.end_.
    apply map_range_for_valid; [apply list_range | exact Hfuel].
  - apply map_thread_length.
  - unfold MappedBase.begin, MappedBase.end_.
    rewrite <- map_thread_stateless.
    apply map_range_for_valid; [apply list_range | exact Hfuel].
Qed.

Lemma map_forward_traversal_witness :
  length [1; 2; 3] < 4 /\
  map_range_for 4 (MappedBase.begin [1; 2; 3] (fun x acc => (x + acc, x + acc)))
                  (MappedBase.end_ [1; 2; 3] (fun x acc => (x + acc, x + acc))) 0
  = Ok ([1; 3; 6], 6).
Proof.
  assert (Hfuel : length [1; 2; 3] < 4) by (simpl; lia).
  split; [exact Hfuel|].
  exact (proj1 (map_forward_traversal nat nat nat [1; 2; 3]
                  (fun x acc => (x + acc, x + acc)) (fun x => x) 0 4 Hfuel)).
Defined.

(** X2.  A whole loop over [Map(s, f)] calls the mapping function exactly
    [|s|] times, and counting the calls changes neither the results nor the
    state the function leaves. *)
Theorem map_traversal_call_count (A B W : Type) (s : list A) (f : A -> W -> B * W)
    (calls : nat) (w : W) (fuel : nat) :
  length s < fuel ->
  map_range_for fuel (MappedBase.begin s (counted f)) (MappedBase.end_ s (counted f)) (calls, w)
  = Ok (fst (map_thread f s w), (calls + length s, snd (map_thread f s w))).
Proof.
  intros Hfuel. rewrite <- map_thread_counted.
  unfold MappedBase.begin, MappedBase.end_.
  apply map_range_for_valid; [apply list_range | exact Hfuel].
Qed.

Lemma map_traversal_call_count_witness :
  length [1; 3; 5] < 4 /\
  map_range_for 4 (MappedBase.begin [1; 3; 5] (counted (stateless (W := unit) Nat.double)))
                  (MappedBase.end_ [1; 3; 5] (counted (stateless (W := unit) Nat.double))) (0, tt)
  = Ok ([2; 6; 10], (3, tt)).
Proof.
  assert (Hfuel : length [1; 3; 5] < 4) by (simpl; lia).
  split; [exact Hfuel|].
  exact (map_traversal_call_count nat nat unit [1; 3; 5] (stateless Nat.double) 0 tt 4 Hfuel).
Defined.

(** X3.  A reverse loop over [Map(s, f)] hands the elements of [s] to the
    mapping function from the last to the first: the results are those of a
    forward loop over [s] reversed, and for a function without state they
    are the forward results back to front. *)
Theorem map_reverse_traversal (A B W : Type) (s : list A) (f : A -> W -> B * W)
    (g : A -> B) (w : W) (fuel : nat) :
  length s < fuel ->
  map_range_for fuel (Mapped.rbegin s f) (Mapped.rend s f) w
  = Ok (map_thread f (rev s) w) /\
  map_range_for fuel (Mapped.rbegin s (stateless g)) (Mapped.rend s (stateless g)) w
  = Ok (rev (map g s), w).
Proof.
  intros Hfuel.
  assert (Hrev : length (rev s) < fuel) by (rewrite length_rev; exact Hfuel).
  split.
  - unfold Mapped.rbegin, Mapped.rend.
    apply map_range_for_valid; [apply list_rrange | exact Hrev].
  - unfold Mapped.rbegin, Mapped.rend.
    rewrite <- map_rev, <- map_thread_stateless.
    apply map_range_for_valid; [apply list_rrange | exact Hrev].
Qed.

Lemma map_reverse_traversal_witness :
  length [1; 2; 3] < 4 /\
  map_range_for 4 (Mapped.rbegin [1; 2; 3] (fun x acc => (x + acc, x + acc)))
                  (Mapped.rend [1; 2; 3] (fun x acc => (x + acc, x + acc))) 0
  = Ok ([3; 5; 6], 6).
Proof.
  assert (Hfuel : length [1; 2; 3] < 4) by (simpl; lia).
  split; [exact Hfuel|].
  exact (proj1 (map_reverse_traversal nat nat nat [1; 2; 3]
                  (fun x acc => (x + acc, x + acc)) (fun x => x) 0 4 Hfuel)).
Defined.

(** ** Filter and Chain: reverse traversal *)

(** X4.  A reverse loop over [Filter(s, pred)] yields the elements of [s]
    that satisfy [pred] from the last to the first: the forward traversal
    back to front. *)
Theorem filter_reverse_traversal (A : Type) (s : list A) (pred : A -> bool) (fuel : nat) :
  length s < fuel ->
  traverse fuel (Filtered.rbegin fuel s pred) (Filtered.rend fuel s pred)
  = Ok (rev (filter pred s)) /\
  traverse fuel (Filtered.rbegin fuel s pred) (Filtered.rend fuel s pred)
  = xs <- traverse fuel (FilteredBase.begin fuel s pred) (FilteredBase.end_ fuel s pred) ;;
    Ok (rev xs).
Proof.
  intros Hfuel.
  assert (R : traverse fuel (Filtered.rbegin fuel s pred) (Filtered.rend fuel s pred)
              = Ok (rev (filter pred s))).
  { unfold Filtered.rbegin, Filtered.rend. rewrite <- filter_rev.
    apply (filter_traverse (std_rend s) pred (length s));
      [apply list_rrange | reflexivity | rewrite length_rev; lia | exact Hfuel]. }
  split; [exact R|]. rewrite R.
  unfold FilteredBase.begin, FilteredBase.end_.
  rewrite (filter_traverse (std_end s) pred (length s) (std_begin s) s fuel);
    [reflexivity | apply list_range | simpl; apply Nat.eqb_refl | lia | exact Hfuel].
Qed.

Lemma filter_reverse_traversal_witness :
  length [0; 0; 0; 1; 2; 2; 2; 3; 4; 4; 4] < 12 /\
  traverse 12 (Filtered.rbegin 12 [0; 0; 0; 1; 2; 2; 2; 3; 4; 4; 4] Nat.odd)
              (Filtered.rend 12 [0; 0; 0; 1; 2; 2; 2; 3; 4; 4; 4] Nat.odd)
  = Ok [3; 1].
Proof.
  assert (Hfuel : length [0; 0; 0; 1; 2; 2; 2; 3; 4; 4; 4] < 12) by (simpl; lia).
  split; [exact Hfuel|].
  exact (proj1 (filter_reverse_traversal nat [0; 0; 0; 1; 2; 2; 2; 3; 4; 4; 4] Nat.odd 12 Hfuel)).
Defined.

Lemma rev_concat {A : Type} (data : list (list A)) :
  rev (concat data) = concat (map (@rev A) (rev data)).
Proof.
  induction data as [|l data IH]; simpl; [reflexivity|].
  rewrite rev_app_distr, IH, map_app, concat_app. simpl.
  rewrite app_nil_r. reflexivity.
Qed.

(** X5.  A reverse loop over [Chain(data)] walks the inner sequences from
    the last to the first and each of them back to front, skipping the
    empty ones: it yields the forward traversal back to front. *)
Theorem chain_reverse_traversal (A : Type) (data : list (list A)) (fuel : nat) :
  length data < fuel ->
  length (concat data) < fuel ->
  traverse fuel (Chained.rbegin fuel data) (Chained.rend fuel data)
  = Ok (rev (concat data)).
Proof.
  intros Hdata Hconcat. unfold Chained.rbegin, Chained.rend.
  rewrite rev_concat.
  apply (chain_traverse (std_rend data) Chained.GetReverseBegin Chained.GetReverseEnd
           (@rev A) (length data) (@list_rrange A) (std_rbegin data) (rev data) fuel).
  - apply list_rrange.
  - reflexivity.
  - rewrite length_rev. lia.
  - exact Hdata.
  - rewrite <- rev_concat, length_rev. exact Hconcat.
Qed.

Lemma chain_reverse_traversal_witness :
  length [[1]; []; []; [2; 3]; []] < 6 /\
  length (concat [[1]; []; []; [2; 3]; []]) < 6 /\
  traverse 6 (Chained.rbegin 6 [[1]; []; []; [2; 3]; []])
             (Chained.rend 6 [[1]; []; []; [2; 3]; []])
  = Ok [3; 2; 1].
Proof.
  assert (Hdata : length [[1]; []; []; [2; 3]; []] < 6) by (simpl; lia).
  assert (Hconcat : length (concat [[1]; []; []; [2; 3]; []]) < 6) by (simpl; lia).
  split; [exact Hdata | split; [exact Hconcat|]].
  exact (chain_reverse_traversal nat [[1]; []; []; [2; 3]; []] 6 Hdata Hconcat).
Defined.

(** ** Join: size and emptiness *)

(** X6.  [size()] of [Join(s1, s2)] is the number of elements its traversal
    yields, and [empty()] holds exactly when the traversal yields none,
    that is when both collections are empty. *)
Theorem join_size_and_empty (A : Type) (s1 s2 : list A) (fuel : nat) :
  length s1 + length s2 < fuel ->
  exists xs,
    range_for fuel (JoinedBase.begin s1 s2) (JoinedBase.end_ s1 s2) = Ok xs /\
    JoinedBase.size s1 s2 = length xs /\
    JoinedBase.empty s1 s2 = is_nil xs /\
    (JoinedBase.empty s1 s2 = true <-> s1 = [] /\ s2 = []).
Proof.
  intros Hfuel. exists (s1 ++ s2). split; [|split; [|split]].
  - unfold JoinedBase.begin, JoinedBase.end_.
    apply join_traverse; try apply list_range.
    rewrite length_app. exact Hfuel.
  - unfold JoinedBase.size. simpl. rewrite length_app. reflexivity.
  - unfold JoinedBase.empty. simpl. destruct s1, s2; reflexivity.
  - unfold JoinedBase.empty. simpl. destruct s1, s2; simpl; split;
      try (intros [? ?]); try discriminate; auto.
Qed.

Lemma join_size_and_empty_witness :
  length [1; 2; 3] + length [4; 5] < 6 /\
  exists xs,
    range_for 6 (JoinedBase.begin [1; 2; 3] [4; 5]) (JoinedBase.end_ [1; 2; 3] [4; 5]) = Ok xs /\
    JoinedBase.size [1; 2; 3] [4; 5] = length xs.
Proof.
  assert (Hfuel : length [1; 2; 3] + length [4; 5] < 6) by (simpl; lia).
  split; [exact Hfuel|].
  destruct (join_size_and_empty nat [1; 2; 3] [4; 5] 6 Hfuel) as (xs & T & S & _).
  exists xs. split; [exact T | exact S].
Defined.

(** ** Iterate *)

(** X7.  [Iterate(s)] hands out the cursors of [s]: a loop over it yields the
    elements of [s] in order, a reverse loop yields them back to front, and
    [Reverse] of it (what [.reverse()] builds) again yields [s] back to
    front, wherever the view's [data_] points.  [size()] and [empty()] are
    those of the collection [data_] points at: [s] itself in the view that
    [Iterate(s)] builds. *)
Theorem iterate_traversal (A : Type) (s : list A)
    (data_ : WithSizeAndEmpty.pointer (list A)) (fuel : nat) :
  length s < fuel ->
  range_for fuel (std_begin (Iterated.Build s data_)) (std_end (Iterated.Build s data_))
  = Ok s /\
  range_for fuel (std_rbegin (Iterated.Build s data_)) (std_rend (Iterated.Build s data_))
  = Ok (rev s) /\
  range_for fuel (std_begin (Reverse (Iterated.Build s data_)))
                 (std_end (Reverse (Iterated.Build s data_)))
  = Ok (rev s) /\
  std_size (Iterated.Build s data_) = length (WithSizeAndEmpty.Data s data_) /\
  (std_empty (Iterated.Build s data_) = true <-> WithSizeAndEmpty.Data s data_ = []) /\
  std_size (Iterate s) = length s /\
  (std_empty (Iterate s) = true <-> s = []).
Proof.
  intros Hfuel.
  assert (R : range_for fuel (std_rbegin s) (std_rend s) = Ok (rev s))
    by (apply range_for_valid_range; [apply list_rrange | rewrite length_rev; exact Hfuel]).
  split; [|split; [|split; [|split; [|split; [|split]]]]].
  - apply range_for_valid_range; [apply list_range | exact Hfuel].
  - exact R.
  - exact R.
  - reflexivity.
  - simpl. unfold WithSizeAndEmpty.empty. simpl.
    destruct (WithSizeAndEmpty.Data s data_); split; intros; try discriminate; reflexivity.
  - reflexivity.
  - simpl. destruct s; split; intros; try discriminate; reflexivity.
Qed.

Lemma iterate_traversal_witness :
  length [1; 3; 5] < 4 /\
  range_for 4 (std_begin (Iterate [1; 3; 5])) (std_end (Iterate [1; 3; 5])) = Ok [1; 3; 5] /\
  range_for 4 (std_rbegin (Iterate [1; 3; 5])) (std_rend (Iterate [1; 3; 5])) = Ok [5; 3; 1].
Proof.
  assert (Hfuel : length [1; 3; 5] < 4) by (simpl; lia).
  pose proof (iterate_traversal nat [1; 3; 5] WithSizeAndEmpty.to_iterable 4 Hfuel)
    as (F & R & _).
  split; [exact Hfuel | split; [exact F | exact R]].
Defined.

(** ** AsReferences *)

Lemma pointees_all {T : Type} (xs : list T) : pointees (map Some xs) = Some xs.
Proof. induction xs as [|x xs IH]; simpl; [|rewrite IH]; reflexivity. Qed.

Lemma pointees_null {T : Type} (pointers : list (option T)) :
  In None pointers -> pointees pointers = None.
Proof.
  induction pointers as [|p ps IH]; intros Hin; [destruct Hin|].
  destruct p as [x|]; [|reflexivity].
  destruct Hin as [E | Hin]; [discriminate|].
  simpl. rewrite (IH Hin). reflexivity.
Qed.

Lemma referenced_loop {I T : Type} `{Iterator I (option T)} (last : I) :
  forall ps it inner fuel,
    valid_range last it ps -> length ps < fuel ->
    range_for_loop inner fuel (ReferencedIterator.Build it last)
      (ReferencedIterator.Build last last)
    = of_option (pointees ps).
Proof.
  induction ps as [|p ps IH]; intros it inner fuel V Hfuel;
    (destruct fuel as [|fuel]; [simpl in Hfuel; lia|]);
    cbn [range_for_loop ceq ReferencedIterator.cursor];
    unfold ReferencedIterator.op_eq; cbn [ReferencedIterator.begin_];
    rewrite (valid_range_at_end _ _ _ V); cbn [is_nil].
  - reflexivity.
  - destruct (valid_range_cons_inv _ _ _ _ V) as [D V'].
    cbn [cderef cincr ReferencedIterator.cursor]. unfold ReferencedIterator.op_deref, ReferencedIterator.op_incr.
    cbn [ReferencedIterator.begin_ ReferencedIterator.end_].
    rewrite D. cbn [of_option bind].
    destruct p as [x|]; cbn [of_option bind]; [|reflexivity].
    rewrite (IH (incr it) inner fuel V') by (simpl in Hfuel; lia).
    cbn [pointees].
    destruct (pointees ps); reflexivity.
Qed.

Lemma referenced_unique_loop {I T : Type} `{Iterator I (unique_ptr.t T)} (last : I) :
  forall ps it inner fuel,
    valid_range last it ps -> length ps < fuel ->
    range_for_loop inner fuel (ReferencedUniqueIterator.Build it last)
      (ReferencedUniqueIterator.Build last last)
    = of_option (pointees (map (@unique_ptr.get T) ps)).
Proof.
  induction ps as [|p ps IH]; intros it inner fuel V Hfuel;
    (destruct fuel as [|fuel]; [simpl in Hfuel; lia|]);
    cbn [range_for_loop ceq ReferencedUniqueIterator.cursor];
    unfold ReferencedUniqueIterator.op_eq; cbn [ReferencedUniqueIterator.begin_];
    rewrite (valid_range_at_end _ _ _ V); cbn [is_nil].
  - reflexivity.
  - destruct (valid_range_cons_inv _ _ _ _ V) as [D V'].
    cbn [cderef cincr ReferencedUniqueIterator.cursor].
    unfold ReferencedUniqueIterator.op_deref, ReferencedUniqueIterator.op_incr.
    cbn [ReferencedUniqueIterator.begin_ ReferencedUniqueIterator.end_].
    rewrite D. cbn [of_option bind].
    destruct p as [[x|]]; cbn [unique_ptr.get of_option bind]; [|reflexivity].
    rewrite (IH (incr it) inner fuel V') by (simpl in Hfuel; lia).
    cbn [map unique_ptr.get pointees].
    destruct (pointees (map (@unique_ptr.get T) ps)); reflexivity.
Qed.

(** X8.  A loop over [AsReferences(pointers)] yields the objects pointed
    at, in the order of the pointers, and a reverse loop yields them back
    to front; the view checks no pointer, so a loop over a collection that
    holds a null pointer dereferences it (undefined behaviour) instead of
    skipping it.  [size()] counts the pointers of the collection [data_]
    points at, and [empty()] tells whether that collection is empty: the
    collection of the view itself, as the constructor leaves [data_]. *)
Theorem as_references_traversal (T : Type) (pointers : list (option T)) (fuel : nat) :
  length pointers < fuel ->
  (forall objects, pointers = map Some objects ->
     range_for fuel (ReferencedBase.begin pointers) (ReferencedBase.end_ pointers)
     = Ok objects /\
     range_for fuel (Referenced.rbegin pointers) (Referenced.rend pointers)
     = Ok (rev objects)) /\
  (In None pointers ->
     range_for fuel (ReferencedBase.begin pointers) (ReferencedBase.end_ pointers)
     = Undefined /\
     range_for fuel (Referenced.rbegin pointers) (Referenced.rend pointers)
     = Undefined) /\
  (forall data_ : WithSizeAndEmpty.pointer (list (option T)),
     ReferencedBase.size pointers data_ = length (WithSizeAndEmpty.Data pointers data_) /\
     (ReferencedBase.empty pointers data_ = true
      <-> WithSizeAndEmpty.Data pointers data_ = [])) /\
  ReferencedBase.size pointers WithSizeAndEmpty.to_iterable = length pointers /\
  (ReferencedBase.empty pointers WithSizeAndEmpty.to_iterable = true <-> pointers = []).
Proof.
  intros Hfuel.
  assert (F : range_for fuel (ReferencedBase.begin pointers) (ReferencedBase.end_ pointers)
              = of_option (pointees pointers)).
  { unfold range_for, ReferencedBase.begin, ReferencedBase.end_.
    apply referenced_loop; [apply list_range | exact Hfuel]. }
  assert (R : range_for fuel (Referenced.rbegin pointers) (Referenced.rend pointers)
              = of_option (pointees (rev pointers))).
  { unfold range_for, Referenced.rbegin, Referenced.rend.
    apply referenced_loop; [apply list_rrange | rewrite length_rev; exact Hfuel]. }
  rewrite F, R. split; [|split; [|split; [|split]]].
  - intros objects ->. rewrite <- map_rev, !pointees_all. split; reflexivity.
  - intros Hnull. rewrite (pointees_null _ Hnull).
    rewrite (pointees_null (rev pointers)) by (apply in_rev; rewrite rev_involutive; exact Hnull).
    split; reflexivity.
  - intros data_. split; [reflexivity|].
    unfold ReferencedBase.empty, WithSizeAndEmpty.empty. simpl.
    destruct (WithSizeAndEmpty.Data pointers data_); split; intros;
      try discriminate; reflexivity.
  - reflexivity.
  - unfold ReferencedBase.empty, WithSizeAndEmpty.empty. simpl.
    destruct pointers; split; intros; try discriminate; reflexivity.
Qed.

Lemma as_references_traversal_witness :
  length [Some 1; Some 3; Some 5] < 4 /\
  range_for 4 (ReferencedBase.begin [Some 1; Some 3; Some 5])
              (ReferencedBase.end_ [Some 1; Some 3; Some 5]) = Ok [1; 3; 5] /\
  range_for 4 (Referenced.rbegin [Some 1; Some 3; Some 5])
              (Referenced.rend [Some 1; Some 3; Some 5]) = Ok (rev [1; 3; 5]).
Proof.
  assert (Hfuel : length [Some 1; Some 3; Some 5] < 4) by (simpl; lia).
  split; [exact Hfuel|].
  exact (proj1 (as_references_traversal nat [Some 1; Some 3; Some 5] 4 Hfuel)
           [1; 3; 5] eq_refl).
Defined.

(** X9.  A loop over [AsReferences] of a collection of [unique_ptr]s yields
    the owned objects in order, a reverse loop yields them back to front;
    a [unique_ptr] that owns nothing is dereferenced all the same
    (undefined behaviour). *)
Theorem as_references_unique_traversal (T : Type) (pointers : list (unique_ptr.t T))
    (fuel : nat) :
  length pointers < fuel ->
  (forall objects, pointers = map (fun x => unique_ptr.make (Some x)) objects ->
     range_for fuel (ReferencedUniqueBase.begin pointers) (ReferencedUniqueBase.end_ pointers)
     = Ok objects /\
     range_for fuel (ReferencedUnique.rbegin pointers) (ReferencedUnique.rend pointers)
     = Ok (rev objects)) /\
  (In (unique_ptr.make None) pointers ->
     range_for fuel (ReferencedUniqueBase.begin pointers) (ReferencedUniqueBase.end_ pointers)
     = Undefined /\
     range_for fuel (ReferencedUnique.rbegin pointers) (ReferencedUnique.rend pointers)
     = Undefined).
Proof.
  intros Hfuel.
  assert (F : range_for fuel (ReferencedUniqueBase.begin pointers)
                (ReferencedUniqueBase.end_ pointers)
              = of_option (pointees (map (@unique_ptr.get T) pointers))).
  { unfold range_for, ReferencedUniqueBase.begin, ReferencedUniqueBase.end_.
    apply referenced_unique_loop; [apply list_range | exact Hfuel]. }
  assert (R : range_for fuel (ReferencedUnique.rbegin pointers)
                (ReferencedUnique.rend pointers)
              = of_option (pointees (map (@unique_ptr.get T) (rev pointers)))).
  { unfold range_for, ReferencedUnique.rbegin, ReferencedUnique.rend.
    apply referenced_unique_loop; [apply list_rrange | rewrite length_rev; exact Hfuel]. }
  rewrite F, R. split.
  - intros objects ->. rewrite <- map_rev, !map_map. cbn [unique_ptr.get].
    rewrite !pointees_all. split; reflexivity.
  - intros Hnull.
    assert (N : In None (map (@unique_ptr.get T) pointers))
      by (apply (in_map (@unique_ptr.get T)) in Hnull; exact Hnull).
    rewrite (pointees_null _ N).
    rewrite (pointees_null (map (@unique_ptr.get T) (rev pointers))).
    + split; reflexivity.
    + rewrite map_rev. apply in_rev. rewrite rev_involutive. exact N.
Qed.

Lemma as_references_unique_traversal_witness :
  length [unique_ptr.make (Some 1); unique_ptr.make (Some 3); unique_ptr.make (Some 5)] < 4 /\
  range_for 4
    (ReferencedUniqueBase.begin
       [unique_ptr.make (Some 1); unique_ptr.make (Some 3); unique_ptr.make (Some 5)])
    (ReferencedUniqueBase.end_
       [unique_ptr.make (Some 1); unique_ptr.make (Some 3); unique_ptr.make (Some 5)])
  = Ok [1; 3; 5].
Proof.
  assert (Hfuel : length [unique_ptr.make (Some 1); unique_ptr.make (Some 3);
                          unique_ptr.make (Some 5)] < 4) by (simpl; lia).
  split; [exact Hfuel|].
  exact (proj1 (proj1 (as_references_unique_traversal nat
                  [unique_ptr.make (Some 1); unique_ptr.make (Some 3); unique_ptr.make (Some 5)]
                  4 Hfuel) [1; 3; 5] eq_refl)).
Defined.

(** ** Zip: reverse traversal *)

(** X10.  A reverse loop over [Zip(s1, s2)] pairs the two sources from
    their backs: it yields [min |s1| |s2|] pairs, the [i]-th pairs the
    [i]-th element from the back of [s1] with the [i]-th from the back of
    [s2]; when the sources have the same length this is the forward
    traversal back to front. *)
Theorem zip_reverse_pairs (A1 A2 : Type) (s1 : list A1) (s2 : list A2) (fuel : nat) :
  Nat.min (length s1) (length s2) < fuel ->
  exists pairs,
    traverse fuel (Zipped.rbegin s1 s2) (Zipped.rend s1 s2) = Ok pairs /\
    length pairs = Nat.min (length s1) (length s2) /\
    (forall i, i < Nat.min (length s1) (length s2) ->
       nth_error pairs i
       = Some (ZippedValue.make (nth_error s1 (length s1 - S i))
                                (nth_error s2 (length s2 - S i)))) /\
    (length s1 = length s2 -> pairs = rev (zipped s1 s2)).
Proof.
  intros Hfuel. exists (zipped (rev s1) (rev s2)). split; [|split; [|split]].
  - unfold Zipped.rbegin, Zipped.rend. apply zip_traverse.
    + apply list_rrange.
    + apply list_rrange.
    + reflexivity.
    + rewrite zipped_length, !length_rev. exact Hfuel.
  - rewrite zipped_length, !length_rev. reflexivity.
  - intros i Hi. rewrite zipped_nth_error by (rewrite !length_rev; exact Hi).
    rewrite !nth_error_rev.
    destruct (Nat.ltb_spec i (length s1)) as [_|]; [|lia].
    destruct (Nat.ltb_spec i (length s2)) as [_|]; [|lia].
    reflexivity.
  - intros E. apply zipped_rev. exact E.
Qed.

Lemma zip_reverse_pairs_witness :
  Nat.min (length [1; 2; 3]) (length [10; 20]) < 3 /\
  exists pairs,
    traverse 3 (Zipped.rbegin [1; 2; 3] [10; 20]) (Zipped.rend [1; 2; 3] [10; 20]) = Ok pairs /\
    length pairs = Nat.min (length [1; 2; 3]) (length [10; 20]).
Proof.
  assert (Hfuel : Nat.min (length [1; 2; 3]) (length [10; 20]) < 3) by (simpl; lia).
  split; [exact Hfuel|].
  destruct (zip_reverse_pairs nat nat [1; 2; 3] [10; 20] 3 Hfuel) as (pairs & T & L & _).
  exists pairs. split; [exact T | exact L].
Defined.

(** ** Enumerate: a reversed source, size and emptiness *)

(** X11.  [Enumerate(Reverse(s))] counts along the reversed order: it pairs
    the elements of [s], from the last to the first, with 0, 1, ..., [|s|-1].
    The reverse traversal of [Enumerate(s)], in a view whose [data_] points
    at [s] itself, visits the same elements in the same order but with the
    positions they have in [s]: the two position sequences mirror each
    other. *)
Theorem enumerate_of_reverse (A : Type) (s : list A) (fuel : nat) :
  (Z.of_nat (length s) <= INT_MAX)%Z ->
  length s < fuel ->
  exists items ritems,
    traverse fuel (EnumeratedBase.begin (Reverse s)) (EnumeratedBase.end_ (Reverse s))
    = Ok items /\
    traverse fuel (Enumerated.rbegin s WithSizeAndEmpty.to_iterable)
                  (Enumerated.rend s WithSizeAndEmpty.to_iterable) = Ok ritems /\
    map (@Item.Value A) items = map Some (rev s) /\
    map (@Item.Value A) ritems = map Some (rev s) /\
    map (@Item.Position A) items = map Z.of_nat (seq 0 (length s)) /\
    map (@Item.Position A) ritems = rev (map Z.of_nat (seq 0 (length s))).
Proof.
  intros Hmax Hfuel.
  exists (enumerated (rev s)), (rev (enumerated s)). split; [|split; [|split; [|split; [|split]]]].
  - rewrite enumerated_items. unfold EnumeratedBase.begin, EnumeratedBase.end_.
    apply (enum_traverse (std_rend s) EnumeratedBase.kIncrement (std_rbegin s)).
    + apply list_rrange.
    + reflexivity.
    + intros k Hk. rewrite length_rev in Hk.
      unfold INT_MAX in *. unfold EnumeratedBase.kIncrement. lia.
    + rewrite length_rev. exact Hfuel.
  - rewrite enumerated_items, items_from_rev.
    rewrite (enum_reverse_traverse s WithSizeAndEmpty.to_iterable (rev s) fuel).
    + do 2 f_equal; simpl; lia.
    + apply list_rrange.
    + reflexivity.
    + rewrite length_rev. exact Hmax.
    + exact Hmax.
    + rewrite length_rev. exact Hfuel.
  - apply enumerated_values.
  - rewrite map_rev, enumerated_values, map_rev. reflexivity.
  - rewrite enumerated_positions, length_rev. reflexivity.
  - rewrite map_rev, enumerated_positions. reflexivity.
Qed.

Lemma enumerate_of_reverse_witness :
  (Z.of_nat (length [5; 6; 7]) <= INT_MAX)%Z /\
  length [5; 6; 7] < 4 /\
  exists items,
    traverse 4 (EnumeratedBase.begin (Reverse [5; 6; 7])) (EnumeratedBase.end_ (Reverse [5; 6; 7]))
    = Ok items /\
    map (@Item.Position nat) items = map Z.of_nat (seq 0 (length [5; 6; 7])).
Proof.
  assert (Hmax : (Z.of_nat (length [5; 6; 7]) <= INT_MAX)%Z) by (unfold INT_MAX; simpl; lia).
  assert (Hfuel : length [5; 6; 7] < 4) by (simpl; lia).
  split; [exact Hmax | split; [exact Hfuel|]].
  destruct (enumerate_of_reverse nat [5; 6; 7] 4 Hmax Hfuel)
    as (items & ritems & T & _ & _ & _ & P & _).
  exists items. split; [exact T | exact P].
Defined.

(** X12.  [size()] and [empty()] of [Enumerate(s)] are those of the
    collection [data_] points at.  In the view as its constructor leaves
    it, where [data_] points at [s], [size()] is the number of items the
    traversal yields and [empty()] holds exactly when it yields none; when
    [data_] points at another collection [c], they are the size and the
    emptiness of [c], whatever the traversal yields. *)
Theorem enumerate_size_and_empty (A : Type) (s c : list A) (fuel : nat) :
  (Z.of_nat (length s) <= INT_MAX)%Z ->
  length s < fuel ->
  exists items,
    traverse fuel (EnumeratedBase.begin s) (EnumeratedBase.end_ s) = Ok items /\
    length items = length s /\
    EnumeratedBase.size s WithSizeAndEmpty.to_iterable = length items /\
    EnumeratedBase.empty s WithSizeAndEmpty.to_iterable = is_nil items /\
    EnumeratedBase.size s (WithSizeAndEmpty.to_other c) = length c /\
    EnumeratedBase.empty s (WithSizeAndEmpty.to_other c) = is_nil c.
Proof.
  intros Hmax Hfuel. unfold INT_MAX in Hmax.
  exists (items_from 0 1 s). split; [|split; [|split; [|split; [|split]]]].
  - unfold EnumeratedBase.begin, EnumeratedBase.end_.
    apply enum_traverse.
    + apply list_range.
    + simpl. apply Nat.eqb_refl.
    + intros k Hk. unfold INT_MAX, EnumeratedBase.kIncrement. lia.
    + exact Hfuel.
  - apply items_from_length.
  - rewrite items_from_length. reflexivity.
  - rewrite items_from_is_nil. destruct s; reflexivity.
  - reflexivity.
  - destruct c; reflexivity.
Qed.

Lemma enumerate_size_and_empty_witness :
  (Z.of_nat (length [5; 6; 7]) <= INT_MAX)%Z /\
  length [5; 6; 7] < 4 /\
  exists items,
    traverse 4 (EnumeratedBase.begin [5; 6; 7]) (EnumeratedBase.end_ [5; 6; 7]) = Ok items /\
    EnumeratedBase.size [5; 6; 7] WithSizeAndEmpty.to_iterable = length items.
Proof.
  assert (Hmax : (Z.of_nat (length [5; 6; 7]) <= INT_MAX)%Z) by (unfold INT_MAX; simpl; lia).
  assert (Hfuel : length [5; 6; 7] < 4) by (simpl; lia).
  split; [exact Hmax | split; [exact Hfuel|]].
  destruct (enumerate_size_and_empty nat [5; 6; 7] [] 4 Hmax Hfuel) as (items & T & _ & S & _).
  exists items. split; [exact T | exact S].
Defined.

(** X20.  An Enumerate view whose [size()] does not read its own source.
    Take [Enumerate] of an [Iterate] view over [s] whose [data_] points at
    a collection [c] (a view that was moved out of one that owned its
    collection points at what the move left behind), or an Enumerate view
    over [s] whose own [data_] points at [c].  The forward traversal still
    pairs the elements of [s] with 0, 1, ..., but [size()] is [|c|] and the
    reverse traversal counts down from [|c| - 1]: from -1 when [c] is
    empty. *)
Theorem enumerate_reverse_stale_size (A : Type) (s c : list A) (fuel : nat) :
  (Z.of_nat (length s) <= INT_MAX)%Z ->
  (Z.of_nat (length c) <= INT_MAX)%Z ->
  length s < fuel ->
  traverse fuel
    (EnumeratedBase.begin (Iterated.Build s (WithSizeAndEmpty.to_other c)))
    (EnumeratedBase.end_ (Iterated.Build s (WithSizeAndEmpty.to_other c)))
  = Ok (enumerated s) /\
  EnumeratedBase.size (Iterated.Build s (WithSizeAndEmpty.to_other c))
    WithSizeAndEmpty.to_iterable = length c /\
  traverse fuel
    (Enumerated.rbegin (Iterated.Build s (WithSizeAndEmpty.to_other c))
       WithSizeAndEmpty.to_iterable)
    (Enumerated.rend (Iterated.Build s (WithSizeAndEmpty.to_other c))
       WithSizeAndEmpty.to_iterable)
  = Ok (items_from (Z.of_nat (length c) - 1) (-1) (rev s)) /\
  traverse fuel (Enumerated.rbegin s (WithSizeAndEmpty.to_other c))
                (Enumerated.rend s (WithSizeAndEmpty.to_other c))
  = Ok (items_from (Z.of_nat (length c) - 1) (-1) (rev s)) /\
  (c = [] ->
   map (@Item.Position A) (items_from (Z.of_nat (length c) - 1) (-1) (rev s))
   = map (fun k => (- Z.of_nat (S k))%Z) (seq 0 (length s))).
Proof.
  intros Hs Hc Hfuel. split; [|split; [|split; [|split]]].
  - rewrite enumerated_items. unfold EnumeratedBase.begin, EnumeratedBase.end_.
    apply (enum_traverse (std_end s) EnumeratedBase.kIncrement (std_begin s)).
    + apply list_range.
    + simpl. apply Nat.eqb_refl.
    + intros k Hk. unfold INT_MAX in *. unfold EnumeratedBase.kIncrement. lia.
    + exact Hfuel.
  - reflexivity.
  - etransitivity;
      [apply (enum_reverse_traverse (Iterated.Build s (WithSizeAndEmpty.to_other c))
                WithSizeAndEmpty.to_iterable (rev s) fuel) | reflexivity].
    + apply list_rrange.
    + reflexivity.
    + rewrite length_rev. exact Hs.
    + exact Hc.
    + rewrite length_rev. exact Hfuel.
  - etransitivity;
      [apply (enum_reverse_traverse s (WithSizeAndEmpty.to_other c) (rev s) fuel)
      | reflexivity].
    + apply list_rrange.
    + reflexivity.
    + rewrite length_rev. exact Hs.
    + exact Hc.
    + rewrite length_rev. exact Hfuel.
  - intros ->.
    assert (G : forall (xs : list A) k,
                map (@Item.Position A) (items_from (- Z.of_nat (S k)) (-1) xs)
                = map (fun k => (- Z.of_nat (S k))%Z) (seq k (length xs))).
    { clear. induction xs as [|x xs IH]; intros k; [reflexivity|].
      cbn [items_from map length seq Item.Position]. f_equal.
      rewrite <- (IH (S k)). do 2 f_equal. lia. }
    rewrite <- (length_rev s). exact (G (rev s) 0).
Qed.

Lemma enumerate_reverse_stale_size_witness :
  (Z.of_nat (length [1; 3; 5]) <= INT_MAX)%Z /\
  (Z.of_nat (length (@nil nat)) <= INT_MAX)%Z /\
  length [1; 3; 5] < 4 /\
  EnumeratedBase.size (Iterated.Build [1; 3; 5] (WithSizeAndEmpty.to_other []))
    WithSizeAndEmpty.to_iterable = 0 /\
  traverse 4
    (Enumerated.rbegin (Iterated.Build [1; 3; 5] (WithSizeAndEmpty.to_other []))
       WithSizeAndEmpty.to_iterable)
    (Enumerated.rend (Iterated.Build [1; 3; 5] (WithSizeAndEmpty.to_other []))
       WithSizeAndEmpty.to_iterable)
  = Ok [Item.make (-1)%Z (Some 5); Item.make (-2)%Z (Some 3); Item.make (-3)%Z (Some 1)].
Proof.
  assert (Hs : (Z.of_nat (length [1; 3; 5]) <= INT_MAX)%Z) by (unfold INT_MAX; simpl; lia).
  assert (Hc : (Z.of_nat (length (@nil nat)) <= INT_MAX)%Z) by (unfold INT_MAX; simpl; lia).
  assert (Hfuel : length [1; 3; 5] < 4) by (simpl; lia).
  pose proof (enumerate_reverse_stale_size nat [1; 3; 5] [] 4 Hs Hc Hfuel)
    as (_ & S & R & _).
  split; [exact Hs | split; [exact Hc | split; [exact Hfuel | split; [exact S | exact R]]]].
Defined.

(** ** Views as collections *)

Lemma joined_deref_agrees {I1 I2 A : Type} `{Iterator I1 A} `{Iterator I2 A}
    (it : JoinedIterator.t I1 I2) :
  of_option (joined_deref it) = JoinedIterator.op_deref it.
Proof.
  unfold joined_deref, JoinedIterator.op_deref.
  destruct (negb (ieq (JoinedIterator.first_ it) (JoinedIterator.first_end_ it))); reflexivity.
Qed.

Ltac joined_unfold :=
  cbn [deref incr ieq joined_ops];
  unfold joined_deref, JoinedIterator.op_eq, JoinedIterator.op_incr;
  cbn [JoinedIterator.first_ JoinedIterator.first_end_
       JoinedIterator.second_ JoinedIterator.second_end_].

Lemma joined_valid_second {I1 I2 A : Type} {ops1 : Iterator I1 A} {ops2 : Iterator I2 A}
    (e1 : I1) (e2 : I2) :
  forall ys b1 b2,
    valid_range e1 b1 [] -> valid_range e2 b2 ys ->
    @valid_range _ _ joined_ops (JoinedIterator.Build e1 e1 e2 e2)
      (JoinedIterator.Build b1 e1 b2 e2) ys.
Proof.
  induction ys as [|y ys IH]; intros b1 b2 V1 V2;
    pose proof (valid_range_at_end _ _ _ V1) as E1;
    pose proof (valid_range_at_end _ _ _ V2) as E2; cbn [is_nil] in E1, E2.
  - apply valid_range_end. joined_unfold. rewrite E1, E2. reflexivity.
  - destruct (valid_range_cons_inv _ _ _ _ V2) as [D V2'].
    apply valid_range_step.
    + joined_unfold. rewrite E1, E2. reflexivity.
    + joined_unfold. rewrite E1. exact D.
    + joined_unfold. rewrite E1. cbn [negb].
      apply IH; assumption.
Qed.

Lemma joined_valid_range {I1 I2 A : Type} {ops1 : Iterator I1 A} {ops2 : Iterator I2 A}
    (e1 : I1) (e2 : I2) :
  forall xs ys b1 b2,
    valid_range e1 b1 xs -> valid_range e2 b2 ys ->
    @valid_range _ _ joined_ops (JoinedIterator.Build e1 e1 e2 e2)
      (JoinedIterator.Build b1 e1 b2 e2) (xs ++ ys).
Proof.
  induction xs as [|x xs IH]; intros ys b1 b2 V1 V2.
  - apply joined_valid_second; assumption.
  - pose proof (valid_range_at_end _ _ _ V1) as E1. cbn [is_nil] in E1.
    destruct (valid_range_cons_inv _ _ _ _ V1) as [D V1'].
    cbn [app]. apply valid_range_step.
    + joined_unfold. rewrite E1. reflexivity.
    + joined_unfold. rewrite E1. exact D.
    + joined_unfold. rewrite E1. cbn [negb].
      apply IH; assumption.
Qed.

Lemma join_view_range {A : Type} (s1 s2 : list A) :
  @valid_range _ _ joined_ops (JoinedBase.end_ s1 s2) (JoinedBase.begin s1 s2) (s1 ++ s2).
Proof. apply joined_valid_range; apply list_range. Qed.

Lemma mapped_valid_range {I A B : Type} {ops : Iterator I A} (e : I) (g : A -> B) :
  forall xs b,
    valid_range e b xs ->
    @valid_range _ _ mapped_ops (MappedIterator.Build e e (stateless g))
      (MappedIterator.Build b e (stateless g)) (map g xs).
Proof.
  induction xs as [|x xs IH]; intros b V;
    pose proof (valid_range_at_end _ _ _ V) as E; cbn [is_nil] in E.
  - apply valid_range_end. exact E.
  - destruct (valid_range_cons_inv _ _ _ _ V) as [D V'].
    cbn [map]. apply valid_range_step.
    + exact E.
    + cbn. unfold mapped_deref. cbn. rewrite D. reflexivity.
    + apply IH. exact V'.
Qed.

(** X13.  A Join view is a collection to the other adapters, with the
    cursor operations of [JoinedIterator]: [Filter(Join(s1, s2), pred)]
    yields the accepted elements of [s1] followed by those of [s2], and
    [Enumerate(Join(s1, s2))] numbers the elements of [s1] and then goes on
    counting through [s2]. *)
Theorem join_view_composes (A : Type) (s1 s2 : list A) (pred : A -> bool) (fuel : nat) :
  (Z.of_nat (length s1 + length s2) <= INT_MAX)%Z ->
  length s1 + length s2 < fuel ->
  (forall it : JoinedIterator.t (list_iterator A) (list_iterator A),
     of_option (@deref _ _ joined_ops it) = JoinedIterator.op_deref it) /\
  traverse fuel
    (@FilteredBase.begin _ _ joined_collection fuel (Join s1 s2) pred)
    (@FilteredBase.end_ _ _ joined_collection fuel (Join s1 s2) pred)
  = Ok (filter pred s1 ++ filter pred s2) /\
  traverse fuel
    (@EnumeratedBase.begin _ _ joined_collection (Join s1 s2))
    (@EnumeratedBase.end_ _ _ joined_collection (Join s1 s2))
  = Ok (enumerated (s1 ++ s2)).
Proof.
  intros Hmax Hfuel. unfold INT_MAX in Hmax.
  assert (Refl : @ieq _ _ joined_ops (JoinedBase.end_ s1 s2) (JoinedBase.end_ s1 s2) = true).
  { unfold JoinedBase.end_. joined_unfold. cbn. rewrite !Nat.eqb_refl. reflexivity. }
  split; [|split].
  - intros it. apply joined_deref_agrees.
  - rewrite <- filter_app.
    unfold FilteredBase.begin, FilteredBase.end_.
    apply (@filter_traverse _ _ joined_ops (JoinedBase.end_ s1 s2) pred
             (length s1 + length s2) (JoinedBase.begin s1 s2) (s1 ++ s2) fuel).
    + apply join_view_range.
    + exact Refl.
    + rewrite length_app. lia.
    + exact Hfuel.
  - rewrite enumerated_items.
    unfold EnumeratedBase.begin, EnumeratedBase.end_.
    apply (@enum_traverse _ _ joined_ops (JoinedBase.end_ s1 s2) EnumeratedBase.kIncrement
             (JoinedBase.begin s1 s2) 0%Z 0%Z (s1 ++ s2) fuel).
    + apply join_view_range.
    + exact Refl.
    + intros k Hk. rewrite length_app in Hk.
      unfold INT_MAX, EnumeratedBase.kIncrement. lia.
    + rewrite length_app. exact Hfuel.
Qed.

Lemma join_view_composes_witness :
  (Z.of_nat (length [1; 2; 3] + length [4; 5; 6]) <= INT_MAX)%Z /\
  length [1; 2; 3] + length [4; 5; 6] < 7 /\
  traverse 7
    (@FilteredBase.begin _ _ joined_collection 7 (Join [1; 2; 3] [4; 5; 6]) Nat.odd)
    (@FilteredBase.end_ _ _ joined_collection 7 (Join [1; 2; 3] [4; 5; 6]) Nat.odd)
  = Ok (filter Nat.odd [1; 2; 3] ++ filter Nat.odd [4; 5; 6]).
Proof.
  assert (Hmax : (Z.of_nat (length [1; 2; 3] + length [4; 5; 6]) <= INT_MAX)%Z)
    by (unfold INT_MAX; simpl; lia).
  assert (Hfuel : length [1; 2; 3] + length [4; 5; 6] < 7) by (simpl; lia).
  split; [exact Hmax | split; [exact Hfuel|]].
  exact (proj1 (proj2 (join_view_composes nat [1; 2; 3] [4; 5; 6] Nat.odd 7 Hmax Hfuel))).
Defined.

(** X14.  A Map view with a function that keeps no state is a collection
    to the other adapters, with the cursor operations of [MappedIterator]:
    [Filter(Map(s, g), pred)] yields the values [g x], for [x] in [s] in
    order, that satisfy [pred]. *)
Theorem map_view_composes (A B : Type) (s : list A) (g : A -> B) (pred : B -> bool)
    (fuel : nat) :
  length s < fuel ->
  (forall it : MappedIterator.t (list_iterator A) A B unit,
     of_option (@deref _ _ mapped_ops it)
     = (r <- MappedIterator.op_deref it tt ;; Ok (fst r)) /\
     MappedIterator.op_incr it tt = Ok (@incr _ _ mapped_ops it, tt)) /\
  traverse fuel
    (@FilteredBase.begin _ _ mapped_collection fuel (Map s g) pred)
    (@FilteredBase.end_ _ _ mapped_collection fuel (Map s g) pred)
  = Ok (filter pred (map g s)).
Proof.
  intros Hfuel. split.
  - intros it. split; [|reflexivity].
    cbn. unfold mapped_deref, MappedIterator.op_deref.
    destruct (deref (MappedIterator.begin_ it)); reflexivity.
  - unfold FilteredBase.begin, FilteredBase.end_.
    apply (@filter_traverse _ _ mapped_ops (MappedBase.end_ s (stateless g)) pred
             (length s) (MappedBase.begin s (stateless g)) (map g s) fuel).
    + apply mapped_valid_range. apply list_range.
    + cbn. apply Nat.eqb_refl.
    + rewrite length_map. lia.
    + exact Hfuel.
Qed.

Lemma map_view_composes_witness :
  length [1; 2; 3; 4] < 5 /\
  traverse 5
    (@FilteredBase.begin _ _ mapped_collection 5 (Map [1; 2; 3; 4] S) Nat.odd)
    (@FilteredBase.end_ _ _ mapped_collection 5 (Map [1; 2; 3; 4] S) Nat.odd)
  = Ok (filter Nat.odd (map S [1; 2; 3; 4])).
Proof.
  assert (Hfuel : length [1; 2; 3; 4] < 5) by (simpl; lia).
  split; [exact Hfuel|].
  exact (proj2 (map_view_composes nat nat [1; 2; 3; 4] S Nat.odd 5 Hfuel)).
Defined.

(** ** Filter: where a cursor comes to rest *)

Lemma rejected_prefix_rejected {A : Type} (pred : A -> bool) (xs : list A) :
  forall i, i < rejected_prefix pred xs ->
    exists x, nth_error xs i = Some x /\ pred x = false.
Proof.
  induction xs as [|x xs IH]; intros i Hi; [simpl in Hi; lia|].
  simpl in Hi. destruct (pred x) eqn:Px; [lia|].
  destruct i as [|i].
  - exists x. split; [reflexivity | exact Px].
  - apply IH. lia.
Qed.

Lemma rejected_prefix_accepted {A : Type} (pred : A -> bool) (xs : list A) :
  forall x, nth_error xs (rejected_prefix pred xs) = Some x -> pred x = true.
Proof.
  induction xs as [|a xs IH]; intros x Hx; [discriminate|].
  simpl in Hx. destruct (pred a) eqn:Pa.
  - simpl in Hx. congruence.
  - apply IH. exact Hx.
Qed.

Lemma filter_skip_position {A : Type} (s : list A) (pred : A -> bool) :
  forall d k fuel,
    length s - k = d -> k <= length s -> d < fuel ->
    FilterIterator.SkipFilteredEntries fuel
      (FilterIterator.Build (ListIterator s k) (std_end s) pred)
    = Ok (FilterIterator.Build
            (ListIterator s (k + rejected_prefix pred (skipn k s))) (std_end s) pred).
Proof.
  induction d as [|d IH]; intros k fuel Hd Hk Hfuel;
    (destruct fuel as [|fuel]; [lia|]);
    cbn [FilterIterator.SkipFilteredEntries];
    unfold FilterIterator.IsEnd, FilterIterator.IsFiltered;
    cbn [FilterIterator.begin_ FilterIterator.end_ FilterIterator.filter_];
    cbn [ieq deref incr list_iterator_ops std_end list_collection iterator_ops pos coll].
  - assert (k = length s) by lia. subst k.
    rewrite Nat.eqb_refl, skipn_all. cbn [negb rejected_prefix].
    rewrite Nat.add_0_r. reflexivity.
  - assert (Hne : (k =? length s) = false) by (apply Nat.eqb_neq; lia).
    rewrite Hne. cbn [negb].
    destruct (nth_error s k) as [x|] eqn:Hx.
    2:{ apply nth_error_None in Hx. lia. }
    cbn [of_option bind].
    rewrite (skipn_cons_nth_error s k x Hx). cbn [rejected_prefix].
    destruct (pred x); cbn [negb].
    + rewrite Nat.add_0_r. reflexivity.
    + replace (k + S (rejected_prefix pred (skipn (S k) s)))
        with (S k + rejected_prefix pred (skipn (S k) s)) by lia.
      exact (IH (S k) fuel ltac:(lia) ltac:(lia) ltac:(lia)).
Qed.

(** X15.  Where a Filter cursor over [s] comes to rest.  The cursor
    [begin()] stands at the first index whose element satisfies [pred] (at
    the end if there is none), and advancing a cursor from index [k] moves
    it to the first such index after [k]: every element passed over is one
    that [pred] rejects, and the element rested on is one that [pred]
    accepts. *)
Theorem filter_cursor_position (A : Type) (s : list A) (pred : A -> bool) (fuel : nat) :
  length s < fuel ->
  FilteredBase.begin fuel s pred
  = Ok (FilterIterator.Build (ListIterator s (rejected_prefix pred s)) (std_end s) pred) /\
  (forall k, k < length s ->
     FilterIterator.op_incr fuel (FilterIterator.Build (ListIterator s k) (std_end s) pred)
     = Ok (FilterIterator.Build
             (ListIterator s (S k + rejected_prefix pred (skipn (S k) s))) (std_end s) pred)) /\
  (forall k i, i < rejected_prefix pred (skipn k s) ->
     exists x, nth_error s (k + i) = Some x /\ pred x = false) /\
  (forall k x, nth_error s (k + rejected_prefix pred (skipn k s)) = Some x -> pred x = true).
Proof.
  intros Hfuel. split; [|split; [|split]].
  - unfold FilteredBase.begin, FilterIterator.make.
    exact (filter_skip_position s pred (length s - 0) 0 fuel eq_refl (Nat.le_0_l _)
             ltac:(lia)).
  - intros k Hk. unfold FilterIterator.op_incr.
    cbn [FilterIterator.begin_ FilterIterator.end_ FilterIterator.filter_].
    exact (filter_skip_position s pred (length s - S k) (S k) fuel eq_refl Hk ltac:(lia)).
  - intros k i Hi. rewrite <- nth_error_skipn. apply rejected_prefix_rejected. exact Hi.
  - intros k x Hx. rewrite <- nth_error_skipn in Hx.
    apply (rejected_prefix_accepted pred (skipn k s)). exact Hx.
Qed.

Lemma filter_cursor_position_witness :
  length [0; 0; 0; 1; 2; 2; 2; 3; 4; 4; 4] < 12 /\
  FilteredBase.begin 12 [0; 0; 0; 1; 2; 2; 2; 3; 4; 4; 4] Nat.odd
  = Ok (FilterIterator.Build
          (ListIterator [0; 0; 0; 1; 2; 2; 2; 3; 4; 4; 4]
             (rejected_prefix Nat.odd [0; 0; 0; 1; 2; 2; 2; 3; 4; 4; 4]))
          (std_end [0; 0; 0; 1; 2; 2; 2; 3; 4; 4; 4]) Nat.odd).
Proof.
  assert (Hfuel : length [0; 0; 0; 1; 2; 2; 2; 3; 4; 4; 4] < 12) by (simpl; lia).
  split; [exact Hfuel|].
  exact (proj1 (filter_cursor_position nat [0; 0; 0; 1; 2; 2; 2; 3; 4; 4; 4] Nat.odd 12 Hfuel)).
Defined.

(** ** MapKeys and MapValues *)

Lemma combine_fst_snd {K V : Type} (entries : list (K * V)) :
  combine (map fst entries) (map snd entries) = entries.
Proof.
  induction entries as [|[k v] entries IH]; simpl; [|rewrite IH]; reflexivity.
Qed.

(** X16.  Over the entries of a map, in the order its iterators give them,
    a loop over [MapKeys] yields the keys and a loop over [MapValues] the
    values, entry by entry: put side by side they give the entries back. *)
Theorem map_keys_and_values (K V : Type) (entries : list (K * V)) (fuel : nat) :
  length entries < fuel ->
  exists keys values,
    map_range_for fuel (fst (MapKeys entries)) (snd (MapKeys entries)) tt = Ok (keys, tt) /\
    map_range_for fuel (fst (MapValues entries)) (snd (MapValues entries)) tt
    = Ok (values, tt) /\
    keys = map fst entries /\
    values = map snd entries /\
    combine keys values = entries.
Proof.
  intros Hfuel. exists (map fst entries), (map snd entries).
  split; [|split; [|split; [|split]]]; try reflexivity.
  - unfold MapKeys, MappedBase.begin, MappedBase.end_. cbn [fst snd].
    rewrite <- (map_thread_stateless (W := unit)).
    apply map_range_for_valid; [apply list_range | exact Hfuel].
  - unfold MapValues, MappedBase.begin, MappedBase.end_. cbn [fst snd].
    rewrite <- (map_thread_stateless (W := unit)).
    apply map_range_for_valid; [apply list_range | exact Hfuel].
  - apply combine_fst_snd.
Qed.

Lemma map_keys_and_values_witness :
  length [(1, true); (2, false)] < 3 /\
  exists keys values,
    map_range_for 3 (fst (MapKeys [(1, true); (2, false)]))
                    (snd (MapKeys [(1, true); (2, false)])) tt = Ok (keys, tt) /\
    map_range_for 3 (fst (MapValues [(1, true); (2, false)]))
                    (snd (MapValues [(1, true); (2, false)])) tt = Ok (values, tt) /\
    combine keys values = [(1, true); (2, false)].
Proof.
  assert (Hfuel : length [(1, true); (2, false)] < 3) by (simpl; lia).
  split; [exact Hfuel|].
  destruct (map_keys_and_values nat bool [(1, true); (2, false)] 3 Hfuel)
    as (keys & values & Tk & Tv & _ & _ & E).
  exists keys, values. split; [exact Tk | split; [exact Tv | exact E]].
Defined.

(** ** Capability traits *)

(** X17.  [details::conjunction] holds exactly when it has at least one
    argument and all its arguments hold (with no argument it is
    [false_type]); [details::disjunction] holds exactly when one of its
    arguments holds. *)
Theorem conjunction_disjunction_values (Bn : list bool) :
  (conjunction Bn = true <-> Bn <> [] /\ forall B, In B Bn -> B = true) /\
  (disjunction Bn = true <-> In true Bn).
Proof.
  split.
  - induction Bn as [|B1 Bn IH].
    + simpl. split; [discriminate | intros [Hne _]; congruence].
    + destruct Bn as [|B2 Bn].
      * simpl. split.
        -- intros ->. split; [discriminate|]. intros B [<- | []]. reflexivity.
        -- intros [_ Hall]. apply Hall. left. reflexivity.
      * change (conjunction (B1 :: B2 :: Bn))
          with (if B1 then conjunction (B2 :: Bn) else false).
        destruct B1.
        -- rewrite IH. split.
           ++ intros [_ Hall]. split; [discriminate|].
              intros B [<- | Hin]; [reflexivity | apply Hall; exact Hin].
           ++ intros [_ Hall]. split; [discriminate|].
              intros B Hin. apply Hall. right. exact Hin.
        -- split; [discriminate|]. intros [_ Hall].
           apply Hall. left. reflexivity.
  - induction Bn as [|B1 Bn IH].
    + simpl. split; [discriminate | intros []].
    + destruct Bn as [|B2 Bn].
      * simpl. split; [intros ->; left; reflexivity | intros [-> | []]; reflexivity].
      * change (disjunction (B1 :: B2 :: Bn))
          with (if B1 then B1 else disjunction (B2 :: Bn)).
        destruct B1.
        -- split; [intros _; left; reflexivity | reflexivity].
        -- rewrite IH. split; [intros Hin; right; exact Hin|].
           intros [E | Hin]; [discriminate | exact Hin].
Qed.

(** ** Reverse as a source, and its own reverse cursors *)

Lemma concat_rev_length {A : Type} (data : list (list A)) :
  length (concat (rev data)) = length (concat data).
Proof.
  induction data as [|l data IH]; [reflexivity|].
  cbn [rev concat]. rewrite concat_app, !length_app, IH. cbn [concat].
  rewrite app_nil_r. lia.
Qed.

(** X18.  [Chain(Reverse(data))] walks the inner sequences from the last to
    the first but each of them front to back: it yields the concatenation
    of the reversed outer sequence, which has the elements of the reverse
    traversal of [Chain(data)] in another order as soon as an inner
    sequence has two elements. *)
Theorem chain_of_reverse (A : Type) (data : list (list A)) (fuel : nat) :
  length data < fuel ->
  length (concat data) < fuel ->
  traverse fuel (ChainedBase.begin fuel (Reverse data)) (ChainedBase.end_ fuel (Reverse data))
  = Ok (concat (rev data)) /\
  length (concat (rev data)) = length (concat data) /\
  (forall x, In x (concat (rev data)) <-> In x (concat data)).
Proof.
  intros Hdata Hconcat.
  split; [|split].
  - unfold ChainedBase.begin, ChainedBase.end_.
    pose proof (chain_traverse (std_rend data) ChainedBase.GetBegin ChainedBase.GetEnd
                  (fun l : list A => l) (length data) (@list_range A)
                  (std_rbegin data) (rev data) fuel (list_rrange data)) as T.
    rewrite map_id in T. apply T.
    + reflexivity.
    + rewrite length_rev. lia.
    + exact Hdata.
    + rewrite concat_rev_length. exact Hconcat.
  - apply concat_rev_length.
  - intros x. rewrite !in_concat. split; intros (l & Hl & Hx); exists l; split;
      try exact Hx; [apply in_rev; exact Hl | apply in_rev in Hl; exact Hl].
Qed.

Lemma chain_of_reverse_witness :
  length [[1; 2]; []; [3; 4]] < 5 /\
  length (concat [[1; 2]; []; [3; 4]]) < 5 /\
  traverse 5 (ChainedBase.begin 5 (Reverse [[1; 2]; []; [3; 4]]))
             (ChainedBase.end_ 5 (Reverse [[1; 2]; []; [3; 4]]))
  = Ok [3; 4; 1; 2].
Proof.
  assert (Hdata : length [[1; 2]; []; [3; 4]] < 5) by (simpl; lia).
  assert (Hconcat : length (concat [[1; 2]; []; [3; 4]]) < 5) by (simpl; lia).
  split; [exact Hdata | split; [exact Hconcat|]].
  exact (proj1 (chain_of_reverse nat [[1; 2]; []; [3; 4]] 5 Hdata Hconcat)).
Defined.

(** X19.  The reverse cursors of a [Reverse] view over [s] are the forward
    cursors of [s]: a reverse loop over it yields [s] front to back, which
    is its own forward traversal back to front, wherever the view's [data_]
    points.  [size()] and [empty()] are those of the collection [data_]
    points at: [s] itself in the view that [Reverse(s)] builds. *)
Theorem reverse_view_reverse_traversal (A : Type) (s : list A)
    (data_ : WithSizeAndEmpty.pointer (list A)) (fuel : nat) :
  length s < fuel ->
  range_for fuel (std_rbegin (Reversed.Build s data_)) (std_rend (Reversed.Build s data_))
  = Ok s /\
  range_for fuel (std_rbegin (Reversed.Build s data_)) (std_rend (Reversed.Build s data_))
  = (xs <- range_for fuel (std_begin (Reversed.Build s data_))
                          (std_end (Reversed.Build s data_)) ;;
     Ok (rev xs)) /\
  std_size (Reversed.Build s data_) = length (WithSizeAndEmpty.Data s data_) /\
  (std_empty (Reversed.Build s data_) = true <-> WithSizeAndEmpty.Data s data_ = []) /\
  std_size (Reverse s) = length s /\
  (std_empty (Reverse s) = true <-> s = []).
Proof.
  intros Hfuel.
  assert (F : range_for fuel (std_rbegin (Reversed.Build s data_))
                (std_rend (Reversed.Build s data_)) = Ok s)
    by (apply range_for_valid_range; [apply list_range | exact Hfuel]).
  assert (R : range_for fuel (std_begin (Reversed.Build s data_))
                (std_end (Reversed.Build s data_)) = Ok (rev s))
    by (apply range_for_valid_range; [apply list_rrange | rewrite length_rev; exact Hfuel]).
  split; [exact F | split; [|split; [|split; [|split]]]].
  - rewrite F, R. cbn [bind]. rewrite rev_involutive. reflexivity.
  - reflexivity.
  - simpl. unfold WithSizeAndEmpty.empty. simpl.
    destruct (WithSizeAndEmpty.Data s data_); split; intros; try discriminate; reflexivity.
  - reflexivity.
  - simpl. destruct s; split; intros; try discriminate; reflexivity.
Qed.

Lemma reverse_view_reverse_traversal_witness :
  length [1; 3; 5] < 4 /\
  range_for 4 (std_rbegin (Reverse [1; 3; 5])) (std_rend (Reverse [1; 3; 5])) = Ok [1; 3; 5].
Proof.
  assert (Hfuel : length [1; 3; 5] < 4) by (simpl; lia).
  split; [exact Hfuel|].
  exact (proj1 (reverse_view_reverse_traversal nat [1; 3; 5] WithSizeAndEmpty.to_iterable
                  4 Hfuel)).
Defined.

(** * Comparing cursors *)






Section IteratorWalk.
Context {I A : Type} `{Iterator I A}.
Variables (e b : I) (xs : list A).
Hypothesis range : valid_range e b xs.



(** The iterators of the range compare by position. *)
Hypothesis positions :
  forall i j, i <= length xs -> j <= length xs ->
    ieq (Nat.iter i incr b) (Nat.iter j incr b) = (i =? j).










End IteratorWalk.



(** Join: the first iterator moves until it reaches its end, then the
    second one does. *)
Section JoinWalk.
Context {I1 I2 A : Type} `{Iterator I1 A} `{Iterator I2 A}.
Variables (e1 b1 : I1) (e2 b2 : I2) (xs ys : list A).
Hypothesis range1 : valid_range e1 b1 xs.
Hypothesis range2 : valid_range e2 b2 ys.
Hypothesis positions1 :
  forall i j, i <= length xs -> j <= length xs ->
    ieq (Nat.iter i incr b1) (Nat.iter j incr b1) = (i =? j).
Hypothesis positions2 :
  forall i j, i <= length ys -> j <= length ys ->
    ieq (Nat.iter i incr b2) (Nat.iter j incr b2) = (i =? j).



End JoinWalk.







